(** * RequestToProxyStream: a push source bridged into a Node.js Readable

    Shallow embedding of [src/lib/RequestProxyStream.js].  The class keeps
    three private fields ([#sendQueue], [#shouldClose],
    [#maxStackedBuffers]) and talks to two collaborators that are not part
    of the repository:

    - the uWebSockets.js response [res], which calls the [onData] callback
      with an [ArrayBuffer] it owns and an [isLast] flag;
    - the [stream.Readable] base class, through [push], [destroy] and the
      hooks [_read] and [_destroy].

    Memory is explicit, because the class stores [Buffer] objects and a
    [Buffer] made by [Buffer.from(arrayBuffer)] is a view on the memory of
    the source, while [Buffer.alloc] gives memory of its own. *)

From Stdlib Require Import ZArith List Bool Lia.
From stdpp Require Import base option list gmap strings.

Local Open Scope Z_scope.

(** ** JavaScript values read from the configuration object *)

Module Js.

(** The values [config.maxStackedBuffers] can hold: the primitives, with
    integers for the numbers (the documented type of the option is [int]),
    and [object] for every object, array, function or symbol. *)
Inductive value : Type :=
| undefined
| null
| boolean (b : bool)
| number (z : Z)
| nan
| bigint (z : Z)
| str (s : string)
| object.

(** [ToBoolean]: the falsy values are [undefined], [null], [false], [0],
    [NaN], [0n] and the empty string. *)
Definition truthy (v : value) : bool :=
  match v with
  | undefined | null | nan => false
  | boolean b => b
  | number z | bigint z => negb (z =? 0)
  | str s => negb (String.eqb s EmptyString)
  | object => true
  end.

(** [a || b] *)
Definition or (a b : value) : value := if truthy a then a else b.

(** [n === v] where [n] is an array length: true only for the number
    equal to [n]. *)
Definition strict_eq_length (n : nat) (v : value) : bool :=
  match v with
  | number z => Z.of_nat n =? z
  | _ => false
  end.

End Js.

(** ** Buffers and the memory they point to *)

Definition bytes : Type := list Byte.byte.

(** A [Buffer] object is a reference: either a view on an [ArrayBuffer] of
    the source (what [Buffer.from(chunk)] returns for an [ArrayBuffer]),
    or memory obtained from [Buffer.alloc]. *)
Inductive Buffer : Type :=
| View (ab : nat)
| Alloc (i : nat).

(** ** What the pull interface sees *)

Inductive Error : Type :=
| MaxBackpressure          (* new Error('Max backpressure threshold reached !') *)
| PushAfterEOF             (* ERR_STREAM_PUSH_AFTER_EOF, raised by Readable *)
| External (msg : string). (* an error handed to destroy() from outside *)

Inductive Signal : Type :=
| Data (b : Buffer)            (* a chunk taken by push(chunk) *)
| EndOfData                    (* push(null) *)
| Destroyed (e : option Error) (* the callback of _destroy *).

(** The answer of [Readable.push(chunk)] on a live stream depends on the
    consumer.  [Accepted]: the chunk is taken and [push] returns [true].
    [Saturated true]: the chunk is taken and [push] returns [false]
    (Node's Readable at its high-water mark).  [Saturated false]: [push]
    returns [false] and the chunk is not taken (a pull interface that
    refuses a chunk when it is not ready). *)
Inductive PushOutcome : Type :=
| Accepted
| Saturated (taken : bool).

Definition Config_default_maxStackedBuffers : Js.value := Js.number 25.

Record Config : Type := { cfg_maxStackedBuffers : Js.value }.

(** [config = {}] *)
Definition empty_config : Config := {| cfg_maxStackedBuffers := Js.undefined |}.

(** ** State of one instance *)

Record State : Type := mkState {
  arrayBuffers : gmap nat bytes;   (* ArrayBuffers owned by the source *)
  allocated : list bytes;          (* memory obtained from Buffer.alloc *)
  sendQueue : list Buffer;         (* #sendQueue *)
  shouldClose : bool;              (* #shouldClose *)
  maxStackedBuffers : Js.value;    (* #maxStackedBuffers *)
  destroyed : bool;                (* Readable: _readableState.destroyed *)
  ended : bool;                    (* Readable: _readableState.ended *)
  output : list Signal             (* signals given to the pull interface, oldest first *)
}.

Definition set_arrayBuffers (m : gmap nat bytes) (s : State) : State :=
  mkState m (allocated s) (sendQueue s) (shouldClose s) (maxStackedBuffers s)
          (destroyed s) (ended s) (output s).

Definition set_allocated (a : list bytes) (s : State) : State :=
  mkState (arrayBuffers s) a (sendQueue s) (shouldClose s) (maxStackedBuffers s)
          (destroyed s) (ended s) (output s).

Definition set_sendQueue (q : list Buffer) (s : State) : State :=
  mkState (arrayBuffers s) (allocated s) q (shouldClose s) (maxStackedBuffers s)
          (destroyed s) (ended s) (output s).

Definition set_shouldClose (b : bool) (s : State) : State :=
  mkState (arrayBuffers s) (allocated s) (sendQueue s) b (maxStackedBuffers s)
          (destroyed s) (ended s) (output s).

Definition set_destroyed (b : bool) (s : State) : State :=
  mkState (arrayBuffers s) (allocated s) (sendQueue s) (shouldClose s)
          (maxStackedBuffers s) b (ended s) (output s).

Definition set_ended (b : bool) (s : State) : State :=
  mkState (arrayBuffers s) (allocated s) (sendQueue s) (shouldClose s)
          (maxStackedBuffers s) (destroyed s) b (output s).

Definition emit (x : Signal) (s : State) : State :=
  mkState (arrayBuffers s) (allocated s) (sendQueue s) (shouldClose s)
          (maxStackedBuffers s) (destroyed s) (ended s) (output s ++ [x]).

(** The bytes a buffer currently shows.  A detached (neutered)
    [ArrayBuffer] has length zero, like one that was never filled. *)
Definition contents (s : State) (b : Buffer) : bytes :=
  match b with
  | View ab => default [] (arrayBuffers s !! ab)
  | Alloc i => default [] (allocated s !! i)
  end.

Definition byteLength (s : State) (b : Buffer) : nat := length (contents s b).

(** ** The Readable base class, as far as the bridge uses it *)

(** [_destroy(error, callback)]: the override of the class. The callback
    of the base class reports the end of the stream, with the error if
    there is one. *)
Definition _destroy (error : option Error) (s : State) : State :=
  emit (Destroyed error) (set_sendQueue [] s).

(** [destroy(err)]: only the first call has an effect; it runs [_destroy]
    synchronously. *)
Definition destroy (err : option Error) (s : State) : State :=
  if destroyed s then s else _destroy err (set_destroyed true s).

(** [push(chunk)] for a chunk of positive length.  After end-of-data the
    base class raises ERR_STREAM_PUSH_AFTER_EOF through [destroy]; on a
    destroyed stream it returns [false] and drops the chunk; otherwise the
    consumer decides. *)
Definition push (o : PushOutcome) (chunk : Buffer) (s : State) : bool * State :=
  if ended s then (false, destroy (Some PushAfterEOF) s)
  else if destroyed s then (false, s)
  else match o with
       | Accepted => (true, emit (Data chunk) s)
       | Saturated true => (false, emit (Data chunk) s)
       | Saturated false => (false, s)
       end.

(** [push(null)]: end-of-data.  A second call finds [ended] set and does
    nothing; after [destroy()] calls to [push] are ignored, so the consumer
    is given no end-of-data on a destroyed stream. *)
Definition push_null (s : State) : State :=
  if ended s then s
  else if destroyed s then set_ended true s
  else emit EndOfData (set_ended true s).

(** ** The class *)

(** [constructor(res, config = {})] *)
Definition constructor (config : Config) : State :=
  {| arrayBuffers := ∅;
     allocated := [];
     sendQueue := [];
     shouldClose := false;
     maxStackedBuffers :=
       Js.or (cfg_maxStackedBuffers config) Config_default_maxStackedBuffers;
     destroyed := false;
     ended := false;
     output := [] |}.

(** [static createBufferCopy(buffer)]: [Buffer.alloc] then [buffer.copy]. *)
Definition createBufferCopy (buffer : Buffer) (s : State) : Buffer * State :=
  (Alloc (length (allocated s)),
   set_allocated (allocated s ++ [contents s buffer]) s).

(** [#close()] *)
Definition close (s : State) : State := destroy None (push_null s).

(** [#tryEnd()] *)
Definition tryEnd (s : State) : State :=
  let s1 := set_shouldClose true s in
  if (length (sendQueue s1) =? 0)%nat then close s1 else s1.

(** [#trySendChunk(buffer)]; [o] is what the consumer answers if this call
    reaches [push].  The copy goes to [push], the buffer that was passed in
    goes to the queue. *)
Definition trySendChunk (o : PushOutcome) (buffer : Buffer) (s : State)
  : bool * State :=
  if (byteLength s buffer =? 0)%nat then (true, tryEnd s)
  else
    let (copy, s1) := createBufferCopy buffer s in
    let (ok, s2) := push o copy s1 in
    if negb ok then
      if Js.strict_eq_length (length (sendQueue s2)) (maxStackedBuffers s2)
      then (false, destroy (Some MaxBackpressure) s2)
      else (false, set_sendQueue (sendQueue s2 ++ [buffer]) s2)
    else (true, s2).

(** [this.#sendQueue.splice(0, 1)] *)
Definition splice_head (s : State) : State := set_sendQueue (tail (sendQueue s)) s.

(** The consumer's answer to the next push of a drain; a drain that is
    given fewer answers than it makes attempts finds the consumer ready. *)
Definition next_outcome (os : list PushOutcome) : PushOutcome :=
  match os with
  | [] => Accepted
  | o :: _ => o
  end.

(** The [while] loop of [_read]; every turn that goes on shortens the
    queue, so [length (sendQueue s)] turns are enough (see
    [read_loop_fuel]). *)
Fixpoint read_loop (fuel : nat) (os : list PushOutcome) (s : State) : State :=
  match fuel with
  | O => s
  | S fuel' =>
      match sendQueue s with
      | [] => s
      | head :: _ =>
          let (ok, s1) := trySendChunk (next_outcome os) head s in
          if ok then read_loop fuel' (tail os) (splice_head s1) else s1
      end
  end.

(** [_read(n)]; [os] holds the answers of the consumer to the successive
    attempts of the loop. *)
Definition _read (os : list PushOutcome) (s : State) : State :=
  let s1 := read_loop (length (sendQueue s)) os s in
  if shouldClose s1 && (length (sendQueue s1) =? 0)%nat then close s1 else s1.

(** The callback given to [res.onData]: [Buffer.from(chunk)] is a view on
    the [ArrayBuffer] [ab] of the source, it shares its memory. *)
Definition onData (ab : nat) (isLast : bool) (o : PushOutcome) (s : State) : State :=
  let (_, s1) := trySendChunk o (View ab) s in
  if isLast then tryEnd s1 else s1.

(** ** Events from the two collaborators *)

Inductive Event : Type :=
| OnData (ab : nat) (chunk : bytes) (isLast : bool) (o : PushOutcome)
    (* the source fills its ArrayBuffer [ab] with [chunk] and calls back *)
| SourceWrites (ab : nat) (chunk : bytes)
    (* the source reuses its ArrayBuffer, or detaches it (no bytes) *)
| Read (os : list PushOutcome)
    (* the pull interface asks for data: _read *)
| Destroy (err : option string).
    (* destroy() called from outside, with or without an error *)

Definition step (e : Event) (s : State) : State :=
  match e with
  | OnData ab chunk isLast o =>
      onData ab isLast o (set_arrayBuffers (<[ab := chunk]> (arrayBuffers s)) s)
  | SourceWrites ab chunk => set_arrayBuffers (<[ab := chunk]> (arrayBuffers s)) s
  | Read os => _read os s
  | Destroy err => destroy (External <$> err) s
  end.

Definition run (evs : list Event) (s : State) : State :=
  fold_left (fun s e => step e s) evs s.

(** ** Observations *)

Definition data_of (x : Signal) : option Buffer :=
  match x with Data b => Some b | _ => None end.

(** The chunks taken by the pull interface, oldest first. *)
Definition pushed (s : State) : list Buffer := omap data_of (output s).

(** The bytes the consumer is given. *)
Definition delivered (s : State) : bytes := concat (contents s <$> pushed s).

Definition fed_chunk (e : Event) : bytes :=
  match e with OnData _ chunk _ _ => chunk | _ => [] end.

(** The bytes the source fed in. *)
Definition fed (evs : list Event) : bytes := concat (fed_chunk <$> evs).

Definition is_end (x : Signal) : bool :=
  match x with EndOfData => true | _ => false end.

Definition is_overflow (x : Signal) : bool :=
  match x with Destroyed (Some MaxBackpressure) => true | _ => false end.

Definition is_data (x : Signal) : bool :=
  match x with Data _ => true | _ => false end.

Definition count (p : Signal -> bool) (l : list Signal) : nat :=
  length (List.filter p l).

(** No chunk is given to the consumer after end-of-data. *)
Fixpoint data_before_end (l : list Signal) : bool :=
  match l with
  | [] => true
  | EndOfData :: l' => forallb (fun x => negb (is_data x)) l'
  | _ :: l' => data_before_end l'
  end.

Definition is_destroyed (x : Signal) : bool :=
  match x with Destroyed _ => true | _ => false end.

(** ** Invariants of the runs *)

(** The pending queue respects an integer threshold [k]. *)
Definition bounded (k : Z) (s : State) : Prop :=
  maxStackedBuffers s = Js.number k /\ Z.of_nat (length (sendQueue s)) <= k.

(** The flags of the Readable agree with the signals it has given. *)
Record lifecycle (s : State) : Prop := {
  lc_ended_destroyed : ended s = true -> destroyed s = true;
  lc_no_end : ended s = false -> count is_end (output s) = 0%nat;
  lc_live : destroyed s = false -> count is_destroyed (output s) = 0%nat;
  lc_end_once : (count is_end (output s) <= 1)%nat;
  lc_destroyed_once : (count is_destroyed (output s) <= 1)%nat;
  lc_order : data_before_end (output s) = true
}.

(** A chunk given to [push] is memory of the bridge and is not empty. *)
Definition owned_nonempty (a : list bytes) (b : Buffer) : Prop :=
  match b with
  | Alloc i => exists bs, a !! i = Some bs /\ bs <> []
  | View _ => False
  end.

Definition pushed_owned (s : State) : Prop :=
  Forall (owned_nonempty (allocated s)) (pushed s).

(** The source feeds a chunk that is not empty while the consumer is
    saturated. *)
Definition saturated_feed (e : Event) : Prop :=
  match e with
  | OnData _ chunk _ (Saturated _) => chunk <> []
  | _ => False
  end.

(** A step makes the stream report the backpressure error. *)
Definition raises_overflow (s s' : State) : Prop :=
  (count is_overflow (output s) < count is_overflow (output s'))%nat.

(** A step gives end-of-data to the consumer. *)
Definition signals_end (s s' : State) : Prop :=
  (count is_end (output s) < count is_end (output s'))%nat.

(** ** Predicates for the further properties *)

(** An event of a run in which the consumer takes every chunk at once: the
    source feeds a chunk that is not empty and not final and [push] returns
    [true], the source reuses a buffer, or the pull interface asks for
    data. *)
Definition ready_event (e : Event) : Prop :=
  match e with
  | OnData _ chunk false Accepted => chunk <> []
  | SourceWrites _ _ => True
  | Read _ => True
  | _ => False
  end.

Definition is_push_after_eof (x : Signal) : bool :=
  match x with Destroyed (Some PushAfterEOF) => true | _ => false end.

(** The stored threshold is a value no array length is [===] to. *)
Definition never_reached (v : Js.value) : Prop :=
  forall n, Js.strict_eq_length n v = false.

(** The stream is live: neither destroyed nor ended. *)
Definition live (s : State) : Prop := destroyed s = false /\ ended s = false.

(** The buffer is a view on memory of the source. *)
Definition is_view (b : Buffer) : bool :=
  match b with View _ => true | Alloc _ => false end.

(** The end of the stream is reported when, and only when, the stream is
    destroyed, once, as the last signal; the Readable is never brought to
    raise its push-after-end error. *)
Definition terminal (s : State) : Prop :=
  (ended s = true -> destroyed s = true) /\
  count is_push_after_eof (output s) = 0%nat /\
  if destroyed s
  then count is_destroyed (output s) = 1%nat /\
       exists e, last (output s) = Some (Destroyed e)
  else count is_destroyed (output s) = 0%nat.

(** Every pending chunk is a view on memory of the source. *)
Definition queue_of_views (s : State) : Prop :=
  Forall (fun b => is_view b = true) (sendQueue s).

(** The source tells that its data ends: a chunk marked last, or an empty
    chunk. *)
Definition closing_signal (e : Event) : bool :=
  match e with
  | OnData _ chunk isLast _ => isLast || (length chunk =? 0)%nat
  | _ => false
  end.

(** From [s] to [s'] the memory of the bridge and the signals given to the
    consumer were only added to. *)
Definition grows (s s' : State) : Prop :=
  allocated s `prefix_of` allocated s' /\ output s `prefix_of` output s'.

(** ** Chunks used in the scenarios *)

Definition A : bytes := [Byte.x41].
Definition B : bytes := [Byte.x42].
Definition C : bytes := [Byte.x43].

(** ** Proof automation for the straight-line methods *)

Ltac unfold_methods :=
  unfold onData, trySendChunk, tryEnd, close, push, push_null, destroy,
    _destroy, createBufferCopy, splice_head, emit, set_arrayBuffers,
    set_allocated, set_sendQueue, set_shouldClose, set_destroyed, set_ended
    in *.

Ltac split_branch :=
  match goal with
  | |- context [if ?c then _ else _] => destruct c eqn:?
  | |- context [match ?o with Accepted => _ | Saturated _ => _ end] =>
      destruct o as [|[|]]
  end.

Ltac by_cases := unfold_methods; simpl in *; repeat (split_branch; simpl in * ).

Ltac use_premises :=
  repeat match goal with
         | H : ?a = ?a -> _ |- _ => specialize (H eq_refl)
         | H : ?a = ?b -> _, H' : ?a = ?b |- _ => specialize (H H')
         end.

(** * Lemmas *)

(** ** The loop of [_read] terminates by its own test *)

Lemma trySendChunk_true_queue o b s :
  (trySendChunk o b s).1 = true ->
  sendQueue (trySendChunk o b s).2 = sendQueue s.
Proof.
  by_cases; intros; try congruence.
  destruct (sendQueue s); [reflexivity | discriminate].
Qed.

Lemma read_loop_fuel n os s :
  (length (sendQueue s) <= n)%nat ->
  read_loop n os s = read_loop (length (sendQueue s)) os s.
Proof.
  revert os s. induction n as [|n IH]; intros os s Hn.
  - assert (length (sendQueue s) = 0%nat) as -> by lia. reflexivity.
  - destruct (sendQueue s) as [|h q] eqn:Hq; simpl; rewrite Hq; [reflexivity|].
    pose proof (trySendChunk_true_queue (next_outcome os) h s) as Hsame.
    destruct (trySendChunk (next_outcome os) h s) as [[|] s1]; [|reflexivity].
    simpl in Hsame. specialize (Hsame eq_refl).
    assert (length (sendQueue (splice_head s1)) = length q) as Hlen.
    { unfold splice_head, set_sendQueue; simpl. rewrite Hsame, Hq. reflexivity. }
    simpl in Hn.
    rewrite (IH (tail os) (splice_head s1)) by lia.
    rewrite Hlen. reflexivity.
Qed.

(** The loop written without fuel: one turn of the [while], then the loop
    again on the shortened queue. *)
Lemma read_loop_unfold os s :
  read_loop (length (sendQueue s)) os s =
  match sendQueue s with
  | [] => s
  | head :: _ =>
      let (ok, s1) := trySendChunk (next_outcome os) head s in
      if ok
      then read_loop (length (sendQueue (splice_head s1))) (tail os) (splice_head s1)
      else s1
  end.
Proof.
  destruct (sendQueue s) as [|h q] eqn:Hq; simpl; rewrite ?Hq; [reflexivity|].
  pose proof (trySendChunk_true_queue (next_outcome os) h s) as Hsame.
  destruct (trySendChunk (next_outcome os) h s) as [[|] s1]; [|reflexivity].
  simpl in Hsame. specialize (Hsame eq_refl).
  apply read_loop_fuel.
  unfold splice_head, set_sendQueue; simpl. rewrite Hsame, Hq. simpl. lia.
Qed.

Lemma run_app evs1 evs2 s : run (evs1 ++ evs2) s = run evs2 (run evs1 s).
Proof. unfold run. apply fold_left_app. Qed.

Lemma run_snoc evs e s : run (evs ++ [e]) s = step e (run evs s).
Proof. rewrite run_app. reflexivity. Qed.

(** ** Invariants: what holds of the methods holds of every run *)

Section Invariant.

Variable I : State -> Prop.

Hypothesis I_write : forall ab chunk s,
  I s -> I (set_arrayBuffers (<[ab := chunk]> (arrayBuffers s)) s).
Hypothesis I_trySendChunk : forall o b s, I s -> I (trySendChunk o b s).2.
Hypothesis I_tryEnd : forall s, I s -> I (tryEnd s).
Hypothesis I_splice : forall s, I s -> I (splice_head s).
Hypothesis I_close : forall s, I s -> I (close s).
Hypothesis I_destroy : forall e s, I s -> I (destroy e s).

Lemma read_loop_invariant n os s : I s -> I (read_loop n os s).
Proof using I_trySendChunk I_splice.
  revert os s. induction n as [|n IH]; intros os s Hs; simpl; auto.
  destruct (sendQueue s) as [|h q]; auto.
  pose proof (I_trySendChunk (next_outcome os) h s Hs) as H1.
  destruct (trySendChunk (next_outcome os) h s) as [[|] s1]; simpl in H1; auto.
Qed.

Lemma step_invariant e s : I s -> I (step e s).
Proof using All.
  intros Hs. destruct e as [ab chunk isLast o|ab chunk|os|err]; simpl; auto.
  - unfold onData.
    pose proof (I_trySendChunk o (View ab) _ (I_write ab chunk s Hs)) as H1.
    destruct (trySendChunk o (View ab) _) as [r s1]; simpl in H1.
    destruct isLast; auto.
  - unfold _read.
    pose proof (read_loop_invariant (length (sendQueue s)) os s Hs) as H1.
    destruct (_ && _); auto.
Qed.

Lemma run_invariant evs s : I s -> I (run evs s).
Proof using All.
  revert s. induction evs as [|e evs IH]; intros s Hs; simpl; auto.
  apply IH, step_invariant, Hs.
Qed.

End Invariant.

(** ** The bound on the pending queue *)

Ltac bounded_cases :=
  unfold bounded; by_cases; intros [Hm Hl]; split; auto;
  rewrite ?Hm in *; simpl in *; rewrite ?length_app; simpl;
  repeat match goal with
         | H : (_ =? _) = false |- _ => apply Z.eqb_neq in H
         end; try lia.

Lemma tryEnd_bounded k s : bounded k s -> bounded k (tryEnd s).
Proof. bounded_cases. Qed.

Lemma destroy_bounded k e s : bounded k s -> bounded k (destroy e s).
Proof. bounded_cases. Qed.

Lemma close_bounded k s : bounded k s -> bounded k (close s).
Proof. bounded_cases. Qed.

Lemma trySendChunk_bounded k o b s :
  bounded k s -> bounded k (trySendChunk o b s).2.
Proof. bounded_cases. destruct k; (discriminate || lia). Qed.

Lemma splice_head_bounded k s : bounded k s -> bounded k (splice_head s).
Proof.
  unfold bounded, splice_head, set_sendQueue; simpl. intros [Hm Hl]; split; auto.
  destruct (sendQueue s); simpl in *; lia.
Qed.

Lemma run_bounded k evs s : bounded k s -> bounded k (run evs s).
Proof.
  apply run_invariant.
  - intros ab chunk s0 H; exact H.
  - apply trySendChunk_bounded.
  - apply tryEnd_bounded.
  - apply splice_head_bounded.
  - apply close_bounded.
  - apply destroy_bounded.
Qed.

(** The threshold the constructor stores is never zero. *)
Lemma constructor_threshold_nonzero config :
  maxStackedBuffers (constructor config) <> Js.number 0.
Proof.
  simpl. unfold Js.or.
  destruct (Js.truthy (cfg_maxStackedBuffers config)) eqn:Ht; [|discriminate].
  intros Hz. rewrite Hz in Ht. discriminate.
Qed.

(** ** Counting signals *)

Lemma count_app p l1 l2 : count p (l1 ++ l2) = (count p l1 + count p l2)%nat.
Proof. unfold count. rewrite List.filter_app, length_app. reflexivity. Qed.

Lemma count_snoc p l x :
  count p (l ++ [x]) = (count p l + if p x then 1 else 0)%nat.
Proof. rewrite count_app. unfold count; simpl. destruct (p x); reflexivity. Qed.

Lemma data_before_end_snoc_data l b :
  count is_end l = 0%nat -> data_before_end (l ++ [Data b]) = true.
Proof.
  induction l as [|x l IH]; simpl; auto.
  destruct x; simpl; auto. unfold count; simpl. discriminate.
Qed.

Lemma data_before_end_snoc l x :
  is_data x = false -> data_before_end l = true -> data_before_end (l ++ [x]) = true.
Proof.
  intros Hx. induction l as [|y l IH]; simpl.
  - destruct x; simpl in *; auto.
  - destruct y; simpl; auto.
    rewrite forallb_app; simpl. rewrite Hx. simpl. intros ->. reflexivity.
Qed.

(** ** Life cycle of the Readable *)

Ltac order :=
  first [ assumption
        | apply data_before_end_snoc_data; assumption
        | apply data_before_end_snoc; [reflexivity | order] ].

Ltac lifecycle_cases :=
  intros [H1 H2 H3 H4 H5 H6]; by_cases; split; simpl; intros;
  rewrite ?count_snoc; simpl; use_premises;
  try congruence; try lia; try order; auto.

Lemma tryEnd_lifecycle s : lifecycle s -> lifecycle (tryEnd s).
Proof. lifecycle_cases. Qed.

Lemma close_lifecycle s : lifecycle s -> lifecycle (close s).
Proof. lifecycle_cases. Qed.

Lemma destroy_lifecycle e s : lifecycle s -> lifecycle (destroy e s).
Proof. lifecycle_cases. Qed.

Lemma trySendChunk_lifecycle o b s : lifecycle s -> lifecycle (trySendChunk o b s).2.
Proof. lifecycle_cases. Qed.

Lemma splice_head_lifecycle s : lifecycle s -> lifecycle (splice_head s).
Proof. lifecycle_cases. Qed.

Lemma constructor_lifecycle config : lifecycle (constructor config).
Proof. split; simpl; auto; discriminate. Qed.

Lemma run_lifecycle evs s : lifecycle s -> lifecycle (run evs s).
Proof.
  apply run_invariant.
  - intros ab chunk s0 [H1 H2 H3 H4 H5 H6]; split; auto.
  - apply trySendChunk_lifecycle.
  - apply tryEnd_lifecycle.
  - apply splice_head_lifecycle.
  - apply close_lifecycle.
  - apply destroy_lifecycle.
Qed.

Lemma reachable_lifecycle config evs : lifecycle (run evs (constructor config)).
Proof. apply run_lifecycle, constructor_lifecycle. Qed.

(** ** After destruction the consumer is given nothing more *)

Lemma run_after_destroy evs s :
  destroyed s = true ->
  destroyed (run evs s) = true /\ output (run evs s) = output s.
Proof.
  intros Hd.
  apply (run_invariant (fun s' => destroyed s' = true /\ output s' = output s));
    auto; intros; by_cases; intuition congruence.
Qed.

(** ** What [tryEnd] and a single [trySendChunk] do to the flags *)

Ltac queue_cases :=
  by_cases; intros; auto; try congruence;
  try (destruct (sendQueue _); [reflexivity | discriminate]).

Lemma tryEnd_sendQueue s : sendQueue (tryEnd s) = sendQueue s.
Proof. queue_cases. Qed.

Lemma tryEnd_shouldClose s : shouldClose (tryEnd s) = true.
Proof. queue_cases. Qed.

Lemma tryEnd_destroyed_mono s : destroyed s = true -> destroyed (tryEnd s) = true.
Proof. queue_cases. Qed.

Lemma trySendChunk_destroyed_mono o b s :
  destroyed s = true -> destroyed (trySendChunk o b s).2 = true.
Proof. queue_cases. Qed.

Lemma trySendChunk_live_queue o b s :
  destroyed (trySendChunk o b s).2 = false ->
  sendQueue (trySendChunk o b s).2 = [] ->
  sendQueue s = [].
Proof.
  by_cases; intros; auto; try congruence;
    try (destruct (sendQueue s); discriminate).
Qed.

Lemma trySendChunk_destroy_clears o b s :
  destroyed s = false -> ended s = false ->
  destroyed (trySendChunk o b s).2 = true ->
  sendQueue (trySendChunk o b s).2 = [].
Proof. queue_cases. Qed.

Lemma tryEnd_destroy_clears s :
  destroyed s = false -> destroyed (tryEnd s) = true -> sendQueue (tryEnd s) = [].
Proof. queue_cases. Qed.

Lemma trySendChunk_ended_mono o b s :
  destroyed (trySendChunk o b s).2 = false -> ended s = false ->
  ended (trySendChunk o b s).2 = false.
Proof. queue_cases. Qed.

(** ** When end-of-data is given *)

Ltac end_cases :=
  unfold signals_end; by_cases; rewrite ?count_snoc; simpl; intros;
  repeat split; auto; try lia; try congruence;
  try (destruct (sendQueue _); [reflexivity | discriminate]).

Lemma trySendChunk_end_mono o b s :
  (count is_end (output s) <= count is_end (output (trySendChunk o b s).2))%nat.
Proof. end_cases. Qed.

Lemma trySendChunk_end o b s :
  signals_end s (trySendChunk o b s).2 ->
  destroyed s = false /\ sendQueue s = [] /\
  sendQueue (trySendChunk o b s).2 = [] /\
  shouldClose (trySendChunk o b s).2 = true /\
  destroyed (trySendChunk o b s).2 = true.
Proof. end_cases. Qed.

Lemma tryEnd_end_mono s :
  (count is_end (output s) <= count is_end (output (tryEnd s)))%nat.
Proof. end_cases. Qed.

Lemma tryEnd_end s :
  signals_end s (tryEnd s) ->
  destroyed s = false /\ sendQueue s = [] /\ destroyed (tryEnd s) = true.
Proof. end_cases. Qed.

Lemma close_end s :
  signals_end s (close s) -> destroyed s = false.
Proof. end_cases. Qed.

Lemma close_sendQueue s :
  sendQueue s = [] -> sendQueue (close s) = [] /\ destroyed (close s) = true.
Proof. by_cases; intros; auto. Qed.

Lemma splice_head_output s : output (splice_head s) = output s.
Proof. reflexivity. Qed.

Lemma read_loop_end n os s :
  count is_end (output (read_loop n os s)) = count is_end (output s).
Proof.
  revert os s. induction n as [|n IH]; intros os s; simpl; auto.
  destruct (sendQueue s) as [|h q] eqn:Hq; auto.
  pose proof (trySendChunk_end_mono (next_outcome os) h s) as Hmono.
  pose proof (trySendChunk_end (next_outcome os) h s) as Hend.
  unfold signals_end in Hend.
  assert (count is_end (output (trySendChunk (next_outcome os) h s).2)
          = count is_end (output s)) as Hsame.
  { destruct (Nat.eq_dec
                (count is_end (output (trySendChunk (next_outcome os) h s).2))
                (count is_end (output s))) as [|Hne]; auto.
    destruct Hend as (_ & Hnil & _); [lia | congruence]. }
  destruct (trySendChunk (next_outcome os) h s) as [[|] s1]; simpl in *; auto.
  rewrite IH, splice_head_output. exact Hsame.
Qed.

Lemma read_loop_destroyed_mono n os s :
  destroyed s = true -> destroyed (read_loop n os s) = true.
Proof.
  apply (read_loop_invariant (fun s' => destroyed s' = true)).
  - intros o b s0. apply trySendChunk_destroyed_mono.
  - intros s0 H; exact H.
Qed.

(** The callback of [onData], on any state. *)
Lemma onData_end ab isLast o s :
  signals_end s (onData ab isLast o s) ->
  destroyed s = false /\ sendQueue s = [] /\
  sendQueue (onData ab isLast o s) = [] /\
  shouldClose (onData ab isLast o s) = true /\
  destroyed (onData ab isLast o s) = true.
Proof.
  unfold onData.
  pose proof (trySendChunk_end_mono o (View ab) s) as Hmono.
  pose proof (trySendChunk_end o (View ab) s) as Hend.
  pose proof (trySendChunk_destroyed_mono o (View ab) s) as Hdm.
  pose proof (trySendChunk_live_queue o (View ab) s) as Hlq.
  destruct (trySendChunk o (View ab) s) as [r s1]; simpl in *.
  destruct isLast; [|exact Hend].
  intros Hsig.
  pose proof (tryEnd_end_mono s1) as Hmono2.
  rewrite tryEnd_sendQueue, tryEnd_shouldClose.
  destruct (Nat.eq_dec (count is_end (output s1)) (count is_end (output s)))
    as [Hsame|Hdiff].
  - destruct (tryEnd_end s1) as (Hd1 & Hq1 & Hd2).
    { unfold signals_end in *. lia. }
    assert (destroyed s = false) as Hd.
    { destruct (destroyed s); auto. specialize (Hdm eq_refl). congruence. }
    repeat split; auto.
  - destruct Hend as (Hd & Hq & Hq1 & Hc1 & Hd1).
    { unfold signals_end in *. lia. }
    repeat split; auto using tryEnd_destroyed_mono.
Qed.

(** A step that gives end-of-data starts from a live stream and leaves the
    queue empty, the closing flag set and the stream destroyed. *)
Lemma step_end e s :
  signals_end s (step e s) ->
  destroyed s = false /\
  sendQueue (step e s) = [] /\ shouldClose (step e s) = true /\
  destroyed (step e s) = true.
Proof.
  destruct e as [ab chunk isLast o|ab chunk|os|err]; simpl.
  - intros Hsig.
    destruct (onData_end ab isLast o
                (set_arrayBuffers (<[ab := chunk]> (arrayBuffers s)) s) Hsig)
      as (Hd & _ & Hq & Hc & Hd').
    repeat split; assumption.
  - unfold signals_end; simpl; lia.
  - unfold _read, signals_end.
    pose proof (read_loop_end (length (sendQueue s)) os s) as Hloop.
    pose proof (read_loop_destroyed_mono (length (sendQueue s)) os s) as Hd.
    destruct (shouldClose _ && _) eqn:Hc; [|lia].
    apply andb_true_iff in Hc as [Hsc Hq].
    rewrite <- Hloop. revert Hsc Hq Hd.
    generalize (read_loop (length (sendQueue s)) os s) as s1. intros s1.
    intros Hsc Hq Hd Hsig.
    pose proof (close_end s1 Hsig) as Hd1.
    assert (sendQueue s1 = []) as Hnil
      by (destruct (sendQueue s1); [reflexivity | discriminate]).
    destruct (close_sendQueue s1 Hnil) as [Hq' Hd'].
    repeat split; auto.
    + destruct (destroyed s); auto. specialize (Hd eq_refl). congruence.
    + revert Hsc. by_cases; auto.
  - end_cases.
Qed.

(** A chunk that arrives while chunks are pending is never answered with
    end-of-data, final or not. *)
Lemma step_onData_end ab chunk isLast o s :
  signals_end s (step (OnData ab chunk isLast o) s) -> sendQueue s = [].
Proof.
  simpl. intros Hsig.
  destruct (onData_end ab isLast o
              (set_arrayBuffers (<[ab := chunk]> (arrayBuffers s)) s) Hsig)
    as (_ & Hq & _).
  exact Hq.
Qed.

Lemma step_onData_last_shouldClose ab chunk o s :
  shouldClose (step (OnData ab chunk true o) s) = true.
Proof.
  simpl. unfold onData. destruct (trySendChunk _ _ _) as [r s1].
  apply tryEnd_shouldClose.
Qed.

(** ** When the backpressure error is raised *)

Ltac overflow_cases :=
  unfold raises_overflow; by_cases; rewrite ?count_snoc; simpl; intros;
  repeat split; auto; try lia; try congruence.

Lemma trySendChunk_overflow_mono o b s :
  (count is_overflow (output s)
   <= count is_overflow (output (trySendChunk o b s).2))%nat.
Proof. overflow_cases. Qed.

Lemma trySendChunk_overflow o b s :
  raises_overflow s (trySendChunk o b s).2 ->
  Js.strict_eq_length (length (sendQueue s)) (maxStackedBuffers s) = true /\
  (trySendChunk o b s).1 = false /\
  byteLength s b <> 0%nat /\
  destroyed s = false.
Proof.
  overflow_cases;
    match goal with
    | H : (_ =? 0)%nat = false |- _ <> _ => apply Nat.eqb_neq in H; exact H
    end.
Qed.

Lemma tryEnd_overflow s :
  count is_overflow (output (tryEnd s)) = count is_overflow (output s).
Proof. overflow_cases. Qed.

Lemma close_overflow s :
  count is_overflow (output (close s)) = count is_overflow (output s).
Proof. overflow_cases. Qed.

Lemma read_loop_overflow k n os s :
  bounded k s ->
  raises_overflow s (read_loop n os s) ->
  Z.of_nat (length (sendQueue s)) = k /\ destroyed s = false.
Proof.
  revert os s. induction n as [|n IH]; intros os s Hb; simpl.
  { unfold raises_overflow; lia. }
  destruct (sendQueue s) as [|h q] eqn:Hq.
  { unfold raises_overflow; lia. }
  pose proof (trySendChunk_overflow_mono (next_outcome os) h s) as Hmono.
  pose proof (trySendChunk_overflow (next_outcome os) h s) as Hraise.
  pose proof (trySendChunk_true_queue (next_outcome os) h s) as Hsame.
  pose proof (trySendChunk_bounded k (next_outcome os) h s Hb) as Hb1.
  destruct Hb as [Hm Hl].
  assert (raises_overflow s (trySendChunk (next_outcome os) h s).2 ->
          Z.of_nat (length (sendQueue s)) = k /\ destroyed s = false) as Hfirst.
  { intros Hr. destruct (Hraise Hr) as (Heq & _ & _ & Hd).
    rewrite Hm in Heq. simpl in Heq. split; [lia | exact Hd]. }
  rewrite Hq in Hfirst.
  destruct (trySendChunk (next_outcome os) h s) as [[|] s1]; simpl in *; auto.
  intros Hr.
  destruct (Nat.eq_dec (count is_overflow (output s1))
              (count is_overflow (output s))) as [Hsame_count|Hdiff].
  - specialize (Hsame eq_refl).
    destruct (IH (tail os) (splice_head s1) (splice_head_bounded k s1 Hb1))
      as [Hlen _].
    { unfold raises_overflow in *. rewrite splice_head_output. lia. }
    unfold splice_head, set_sendQueue in Hlen; simpl in Hlen.
    rewrite Hsame, Hq in Hlen. simpl in Hlen, Hl. rewrite Hq in Hl.
    simpl in Hl. lia.
  - apply Hfirst. unfold raises_overflow. lia.
Qed.

(** In a run that respects an integer threshold [k], a step raises the
    backpressure error only from a live stream whose queue holds exactly
    [k] chunks. *)
Lemma step_overflow k e s :
  bounded k s ->
  raises_overflow s (step e s) ->
  Z.of_nat (length (sendQueue s)) = k /\ destroyed s = false.
Proof.
  intros Hb. destruct e as [ab chunk isLast o|ab chunk|os|err]; simpl.
  - destruct Hb as [Hm Hl]. unfold onData. intros Hr.
    pose proof (trySendChunk_overflow o (View ab)
                  (set_arrayBuffers (<[ab := chunk]> (arrayBuffers s)) s)) as Hraise.
    destruct (trySendChunk o (View ab) _) as [r s1]; simpl in Hraise.
    destruct Hraise as (Heq & _ & _ & Hd).
    { unfold raises_overflow in *. simpl.
      destruct isLast; [rewrite tryEnd_overflow in Hr|]; exact Hr. }
    simpl in Heq, Hd. rewrite Hm in Heq. simpl in Heq. split; [lia | exact Hd].
  - unfold raises_overflow; simpl; lia.
  - unfold _read. intros Hr.
    apply (read_loop_overflow k (length (sendQueue s)) os s Hb).
    destruct (shouldClose _ && _); auto.
    unfold raises_overflow in *. rewrite close_overflow in Hr. exact Hr.
  - destruct err; overflow_cases.
Qed.

(** ** Destruction empties the queue *)

Lemma trySendChunk_live o b s :
  destroyed s = false -> ended s = false -> sendQueue s <> [] ->
  (destroyed (trySendChunk o b s).2 = false /\
   ended (trySendChunk o b s).2 = false /\
   sendQueue (trySendChunk o b s).2 <> []) \/
  ((trySendChunk o b s).1 = false /\ sendQueue (trySendChunk o b s).2 = []).
Proof.
  by_cases; intros; auto; try congruence.
  - destruct (sendQueue s); [congruence | discriminate].
  - left. repeat split; auto. destruct (sendQueue s); discriminate.
  - left. repeat split; auto. destruct (sendQueue s); discriminate.
Qed.

Lemma read_loop_live n os s :
  destroyed s = false -> ended s = false ->
  (destroyed (read_loop n os s) = false /\ ended (read_loop n os s) = false) \/
  sendQueue (read_loop n os s) = [].
Proof.
  revert os s. induction n as [|n IH]; intros os s Hd He; simpl; auto.
  destruct (sendQueue s) as [|h q] eqn:Hq; auto.
  pose proof (trySendChunk_live (next_outcome os) h s Hd He) as Hlive.
  rewrite Hq in Hlive. specialize (Hlive ltac:(discriminate)).
  destruct (trySendChunk (next_outcome os) h s) as [[|] s1]; simpl in *.
  - destruct Hlive as [(Hd1 & He1 & _)|[Hf _]]; [|discriminate].
    apply IH; assumption.
  - destruct Hlive as [(Hd1 & He1 & _)|[_ Hq1]]; auto.
Qed.

(** The step that destroys a live stream leaves the queue empty. *)
Lemma step_destroy_clears e s :
  destroyed s = false -> ended s = false ->
  destroyed (step e s) = true -> sendQueue (step e s) = [].
Proof.
  intros Hd He. destruct e as [ab chunk isLast o|ab chunk|os|err]; simpl.
  - unfold onData.
    pose proof (trySendChunk_destroy_clears o (View ab)
                  (set_arrayBuffers (<[ab := chunk]> (arrayBuffers s)) s) Hd He)
      as Hclear.
    destruct (trySendChunk o (View ab) _) as [r s1]; simpl in Hclear.
    destruct isLast; [|exact Hclear].
    rewrite tryEnd_sendQueue. intros Hd2.
    destruct (destroyed s1) eqn:Hd1; [auto|].
    rewrite <- (tryEnd_sendQueue s1). apply tryEnd_destroy_clears; assumption.
  - congruence.
  - unfold _read.
    pose proof (read_loop_live (length (sendQueue s)) os s Hd He) as Hlive.
    revert Hlive. generalize (read_loop (length (sendQueue s)) os s) as s1.
    intros s1 Hlive.
    destruct (shouldClose s1 && _) eqn:Hc.
    + apply andb_true_iff in Hc as [_ Hq]. intros _.
      apply close_sendQueue.
      destruct (sendQueue s1); [reflexivity | discriminate].
    + intros Hd1. destruct Hlive as [[Hd2 _]|Hq]; [congruence | exact Hq].
  - revert Hd. by_cases; intros; auto; congruence.
Qed.

(** ** What is pushed is owned and not empty *)

Lemma owned_nonempty_app a a' b :
  owned_nonempty a b -> owned_nonempty (a ++ a') b.
Proof.
  destruct b as [ab|i]; simpl; auto.
  intros (bs & Hi & Hne). exists bs. split; auto.
  apply lookup_app_l_Some, Hi.
Qed.

Lemma owned_nonempty_new a c : c <> [] -> owned_nonempty (a ++ [c]) (Alloc (length a)).
Proof.
  intros Hc. exists c. split; auto.
  rewrite lookup_app_r by lia. rewrite Nat.sub_diag. reflexivity.
Qed.

Lemma Forall_owned_app a a' l :
  Forall (owned_nonempty a) l -> Forall (owned_nonempty (a ++ a')) l.
Proof.
  induction 1 as [|b l Hb Hl IH]; constructor; auto using owned_nonempty_app.
Qed.

Ltac owned_cases :=
  unfold pushed_owned, pushed; by_cases; intros; rewrite ?omap_app; simpl;
  rewrite ?app_nil_r; auto;
  rewrite ?Forall_app; repeat split; auto using Forall_owned_app;
  try (apply Forall_singleton, owned_nonempty_new;
       match goal with
       | H : (byteLength ?s ?b =? 0)%nat = false |- _ =>
           apply Nat.eqb_neq in H; unfold byteLength in H;
           intros Hnil; apply H; simpl in Hnil; rewrite Hnil; reflexivity
       end).

Lemma trySendChunk_pushed_owned o b s :
  pushed_owned s -> pushed_owned (trySendChunk o b s).2.
Proof. owned_cases. Qed.

Lemma run_pushed_owned evs s : pushed_owned s -> pushed_owned (run evs s).
Proof.
  apply run_invariant.
  - intros ab chunk s0 H; exact H.
  - apply trySendChunk_pushed_owned.
  - intros s0. owned_cases.
  - intros s0 H; exact H.
  - intros s0. owned_cases.
  - intros e s0. owned_cases.
Qed.

Lemma pushed_owned_contents s b :
  pushed_owned s -> b ∈ pushed s -> contents s b <> [].
Proof.
  unfold pushed_owned. rewrite Forall_forall. intros Hall Hin.
  specialize (Hall b Hin). destruct b as [ab|i]; simpl in *; [contradiction|].
  destruct Hall as (bs & -> & Hne). exact Hne.
Qed.

(** ** Feeding a saturated consumer *)

Lemma step_maxStackedBuffers e s : maxStackedBuffers (step e s) = maxStackedBuffers s.
Proof.
  apply (step_invariant (fun s' => maxStackedBuffers s' = maxStackedBuffers s));
    auto; intros; by_cases; auto.
Qed.

Lemma byteLength_written ab chunk s :
  byteLength (set_arrayBuffers (<[ab := chunk]> (arrayBuffers s)) s) (View ab)
  = length chunk.
Proof. unfold byteLength; simpl. rewrite lookup_insert_eq. reflexivity. Qed.

(** A chunk that is not empty, offered to a live stream whose consumer is
    saturated: below the threshold it goes to the tail of the queue, at the
    threshold the stream is destroyed. *)
Lemma trySendChunk_saturated taken b s :
  byteLength s b <> 0%nat ->
  destroyed s = false -> ended s = false ->
  let r := trySendChunk (Saturated taken) b s in
  r.1 = false /\
  if Js.strict_eq_length (length (sendQueue s)) (maxStackedBuffers s)
  then destroyed r.2 = true /\ sendQueue r.2 = [] /\
       count is_overflow (output r.2) = S (count is_overflow (output s)) /\
       last (output r.2) = Some (Destroyed (Some MaxBackpressure))
  else destroyed r.2 = false /\ ended r.2 = false /\
       sendQueue r.2 = sendQueue s ++ [b] /\
       count is_overflow (output r.2) = count is_overflow (output s).
Proof.
  intros Hlen Hd He. apply Nat.eqb_neq in Hlen.
  cbv zeta. unfold trySendChunk. rewrite Hlen.
  unfold createBufferCopy, push. simpl. rewrite He, Hd.
  destruct taken; simpl;
    destruct (Js.strict_eq_length (length (sendQueue s)) (maxStackedBuffers s));
    simpl; unfold destroy; simpl; rewrite ?Hd; simpl;
    rewrite ?count_snoc, ?last_snoc; simpl; repeat split; auto; lia.
Qed.

Lemma tryEnd_pending s :
  sendQueue s <> [] -> tryEnd s = set_shouldClose true s.
Proof.
  unfold tryEnd. simpl. destruct (sendQueue s); [congruence | reflexivity].
Qed.

Lemma tryEnd_after_destroy s :
  destroyed s = true ->
  destroyed (tryEnd s) = true /\ output (tryEnd s) = output s.
Proof. by_cases; intros; auto; congruence. Qed.

Lemma close_after_destroy s :
  destroyed s = true ->
  destroyed (close s) = true /\ output (close s) = output s /\
  sendQueue (close s) = sendQueue s.
Proof. by_cases; intros; auto; congruence. Qed.

(** [_read] when its first attempt is not delivered: the loop stops there. *)
Lemma read_first_attempt_fails os head rest s s1 :
  sendQueue s = head :: rest ->
  trySendChunk (next_outcome os) head s = (false, s1) ->
  _read os s =
  if shouldClose s1 && (length (sendQueue s1) =? 0)%nat then close s1 else s1.
Proof.
  intros Hq Hfail. unfold _read. rewrite read_loop_unfold, Hq, Hfail.
  reflexivity.
Qed.

(** The same for one [onData] call. *)
Lemma saturated_feed_step k ab chunk isLast taken s :
  chunk <> [] ->
  maxStackedBuffers s = Js.number k ->
  destroyed s = false -> ended s = false ->
  let s' := step (OnData ab chunk isLast (Saturated taken)) s in
  if Z.of_nat (length (sendQueue s)) =? k
  then destroyed s' = true /\ sendQueue s' = [] /\
       count is_overflow (output s') = S (count is_overflow (output s))
  else destroyed s' = false /\ ended s' = false /\
       sendQueue s' = sendQueue s ++ [View ab] /\
       count is_overflow (output s') = count is_overflow (output s).
Proof.
  intros Hne Hm Hd He.
  pose proof (trySendChunk_saturated taken (View ab)
                (set_arrayBuffers (<[ab := chunk]> (arrayBuffers s)) s)) as Hsat.
  rewrite byteLength_written in Hsat.
  specialize (Hsat ltac:(destruct chunk; [congruence | discriminate]) Hd He).
  cbv zeta in *. cbn [step]. unfold onData.
  destruct (trySendChunk (Saturated taken) (View ab) _) as [r s1].
  cbn [fst snd sendQueue set_arrayBuffers output maxStackedBuffers] in Hsat.
  destruct Hsat as [_ Hsat]. rewrite Hm in Hsat. cbn [Js.strict_eq_length] in Hsat.
  destruct (Z.of_nat (length (sendQueue s)) =? k).
  - destruct Hsat as (Hd1 & Hq1 & Hc1 & _).
    destruct isLast; [|auto].
    destruct (tryEnd_after_destroy s1 Hd1) as [Hd2 Ho2].
    rewrite tryEnd_sendQueue, Ho2. auto.
  - destruct Hsat as (Hd1 & He1 & Hq1 & Hc1).
    destruct isLast; [|auto].
    rewrite tryEnd_pending
      by (rewrite Hq1; destruct (sendQueue s); discriminate).
    auto.
Qed.

Lemma saturated_feeds_queue k evs s :
  maxStackedBuffers s = Js.number k ->
  destroyed s = false -> ended s = false -> sendQueue s = [] ->
  Forall saturated_feed evs ->
  Z.of_nat (length evs) <= k ->
  let s' := run evs s in
  maxStackedBuffers s' = Js.number k /\
  destroyed s' = false /\ ended s' = false /\
  length (sendQueue s') = length evs /\
  count is_overflow (output s') = count is_overflow (output s).
Proof.
  intros Hm Hd He Hq. induction evs as [|e evs IH] using rev_ind; intros Hall Hlen.
  - simpl. rewrite Hq. auto.
  - apply Forall_app in Hall as [Hall He1].
    rewrite Forall_singleton in He1.
    rewrite length_app in Hlen; simpl in Hlen.
    destruct (IH Hall ltac:(lia)) as (Hm' & Hd' & He' & Hq' & Hc').
    cbv zeta. rewrite run_snoc.
    destruct e as [ab chunk isLast [|taken]|ab chunk|os|err];
      simpl in He1; try contradiction.
    pose proof (saturated_feed_step k ab chunk isLast taken (run evs s)
                  He1 Hm' Hd' He') as Hstep.
    cbv zeta in Hstep.
    destruct (Z.of_nat (length (sendQueue (run evs s))) =? k) eqn:Hk; [lia|].
    destruct Hstep as (Hd1 & He1' & Hq1 & Hc1).
    repeat split; auto.
    + rewrite step_maxStackedBuffers. exact Hm'.
    + rewrite Hq1, !length_app, Hq'. reflexivity.
    + congruence.
Qed.

(** ** The two scenarios of the specification *)

(** [maxStackedBuffers = 2], the consumer never takes a chunk: [A] and [B]
    are queued, [C] destroys the stream with the backpressure error and the
    consumer has received no byte. *)
Example scenario_overflow :
  let s := run [OnData 0 A false (Saturated false);
                OnData 1 B false (Saturated false);
                OnData 2 C false (Saturated false)]
               (constructor {| cfg_maxStackedBuffers := Js.number 2 |}) in
  sendQueue (run [OnData 0 A false (Saturated false);
                  OnData 1 B false (Saturated false)]
                 (constructor {| cfg_maxStackedBuffers := Js.number 2 |}))
  = [View 0; View 1] /\
  output s = [Destroyed (Some MaxBackpressure)] /\
  delivered s = [] /\ sendQueue s = [].
Proof. vm_compute. repeat split. Qed.

(** The consumer is always ready: [A], [B], then a final empty chunk give
    [A], [B], end-of-data, and no error. *)
Example scenario_ready :
  let s := run [OnData 0 A false Accepted;
                OnData 1 B false Accepted;
                OnData 2 [] true Accepted] (constructor empty_config) in
  output s = [Data (Alloc 0); Data (Alloc 1); EndOfData; Destroyed None] /\
  delivered s = A ++ B.
Proof. vm_compute. repeat split. Qed.

(** * The claims *)

(** C10: a falsy [config.maxStackedBuffers] (0, undefined, null, false, NaN,
    0n, the empty string) makes the constructor store the default 25, and no
    configuration at all gives a threshold of zero. *)
Theorem falsy_maxStackedBuffers_defaults_to_25 (config : Config) :
  Js.truthy (cfg_maxStackedBuffers config) = false ->
  maxStackedBuffers (constructor config) = Js.number 25 /\
  (forall config', maxStackedBuffers (constructor config') <> Js.number 0).
Proof.
  intros Hf. split.
  - simpl. unfold Js.or. rewrite Hf. reflexivity.
  - apply constructor_threshold_nonzero.
Qed.

Lemma falsy_maxStackedBuffers_defaults_to_25_witness :
  Js.truthy (Js.number 0) = false /\
  maxStackedBuffers (constructor {| cfg_maxStackedBuffers := Js.number 0 |})
  = Js.number 25.
Proof.
  split; [reflexivity|].
  apply (falsy_maxStackedBuffers_defaults_to_25
           {| cfg_maxStackedBuffers := Js.number 0 |}).
  reflexivity.
Defined.

(** C3: with a threshold [k] that is a non-negative integer, the pending
    queue holds at most [k] chunks in every state a run reaches; and when a
    chunk is not delivered while the queue holds exactly [k] chunks, the
    stream ends up destroyed, the chunk is not put in the queue, and a
    stream that was still live reports the backpressure error. *)
Theorem sendQueue_bounded_by_maxStackedBuffers (config : Config) (k : Z) :
  maxStackedBuffers (constructor config) = Js.number k ->
  0 <= k ->
  forall evs,
    let s := run evs (constructor config) in
    Z.of_nat (length (sendQueue s)) <= k /\
    forall o buffer,
      Z.of_nat (length (sendQueue s)) = k ->
      (trySendChunk o buffer s).1 = false ->
      let s' := (trySendChunk o buffer s).2 in
      destroyed s' = true /\
      sendQueue s' = (if destroyed s then sendQueue s else []) /\
      (destroyed s = false ->
       last (output s') = Some (Destroyed (Some MaxBackpressure))).
Proof.
  intros Hk Hpos evs s.
  assert (bounded k s) as [Hm Hl].
  { apply run_bounded. split; [exact Hk | simpl; lia]. }
  split; [exact Hl|].
  intros o buffer Hfull.
  destruct (reachable_lifecycle config evs) as [Hed _ _ _ _ _]. fold s in Hed.
  assert (Js.strict_eq_length (length (sendQueue s)) (maxStackedBuffers s) = true)
    as Heq by (rewrite Hm; simpl; lia).
  by_cases; intros; use_premises; try congruence;
    rewrite ?last_snoc; repeat split; auto; discriminate.
Qed.

Lemma sendQueue_bounded_by_maxStackedBuffers_witness :
  let config := {| cfg_maxStackedBuffers := Js.number 1 |} in
  let s := run [OnData 0 A false (Saturated false)] (constructor config) in
  Z.of_nat (length (sendQueue s)) <= 1 /\
  sendQueue (trySendChunk (Saturated false) (View 0) s).2 = [] /\
  last (output (trySendChunk (Saturated false) (View 0) s).2)
  = Some (Destroyed (Some MaxBackpressure)).
Proof.
  intros config s.
  destruct (sendQueue_bounded_by_maxStackedBuffers config 1 eq_refl ltac:(lia)
              [OnData 0 A false (Saturated false)]) as [Hle Hfull].
  split; [exact Hle|].
  destruct (Hfull (Saturated false) (View 0) eq_refl eq_refl) as (_ & Hq & Herr).
  split; [exact Hq | exact (Herr eq_refl)].
Defined.

(** C8: [trySendChunk] on a buffer of length zero returns [true] and does
    what [tryEnd] does, no more: nothing is copied, nothing is pushed as
    data, and the pending queue is left as it was.  In every run, each
    chunk that was pushed as data has at least one byte. *)
Theorem trySendChunk_empty_only_tryEnd (o : PushOutcome) (buffer : Buffer) (s : State) :
  byteLength s buffer = 0%nat ->
  trySendChunk o buffer s = (true, tryEnd s) /\
  sendQueue (tryEnd s) = sendQueue s /\
  pushed (tryEnd s) = pushed s /\
  allocated (tryEnd s) = allocated s /\
  (forall config evs b,
     b ∈ pushed (run evs (constructor config)) ->
     contents (run evs (constructor config)) b <> []).
Proof.
  intros Hlen. split; [|split; [|split; [|split]]].
  - unfold trySendChunk. rewrite Hlen. reflexivity.
  - by_cases; auto. destruct (sendQueue s); [reflexivity|discriminate].
  - unfold pushed. by_cases; rewrite ?omap_app; simpl;
      rewrite ?app_nil_r; reflexivity.
  - by_cases; reflexivity.
  - intros config evs b. apply pushed_owned_contents, run_pushed_owned.
    constructor.
Qed.

Lemma trySendChunk_empty_only_tryEnd_witness :
  let s := run [OnData 0 A false (Saturated false)] (constructor empty_config) in
  byteLength s (View 1) = 0%nat /\
  trySendChunk Accepted (View 1) s = (true, tryEnd s) /\
  sendQueue (tryEnd s) = [View 0] /\
  pushed (tryEnd s) = [].
Proof.
  intros s.
  assert (byteLength s (View 1) = 0%nat) as Hlen by (vm_compute; reflexivity).
  destruct (trySendChunk_empty_only_tryEnd Accepted (View 1) s Hlen)
    as (Hcall & Hq & Hp & _).
  split; [exact Hlen|]. split; [exact Hcall|].
  split; [rewrite Hq | rewrite Hp]; vm_compute; reflexivity.
Defined.

(** X13: in every run end-of-data is given to the consumer at most once,
    whatever the number of [onData] and [_read] calls that look at the
    closing condition, and the step that gives it leaves the closing flag
    set, the pending queue empty and the stream destroyed. *)
Theorem end_of_data_at_most_once (config : Config) (evs : list Event) :
  let s := run evs (constructor config) in
  (count is_end (output s) <= 1)%nat /\
  forall e,
    signals_end s (step e s) ->
    count is_end (output s) = 0%nat /\
    shouldClose (step e s) = true /\
    sendQueue (step e s) = [] /\
    destroyed (step e s) = true.
Proof.
  intros s. split.
  - apply reachable_lifecycle.
  - intros e Hend.
    destruct (step_end e s Hend) as (_ & Hq & Hc & Hd).
    pose proof (lc_end_once _ (reachable_lifecycle config (evs ++ [e]))) as Honce.
    rewrite run_snoc in Honce. fold s in Honce.
    unfold signals_end in Hend. repeat split; auto. lia.
Qed.

Lemma end_of_data_at_most_once_witness :
  let evs := [OnData 0 A false Accepted; OnData 1 [] true Accepted] in
  count is_end (output (run evs (constructor empty_config))) = 1%nat /\
  sendQueue (run evs (constructor empty_config)) = [].
Proof.
  cbv zeta. split; [vm_compute; reflexivity|].
  destruct (end_of_data_at_most_once empty_config [OnData 0 A false Accepted])
    as [_ Hstep].
  destruct (Hstep (OnData 1 [] true Accepted)) as (_ & _ & Hq & _).
  - unfold signals_end. vm_compute. lia.
  - exact Hq.
Defined.

(** C4, as stated, fails: with [maxStackedBuffers = 1] the second chunk
    destroys the stream, and the third chunk, which arrives after the one
    that caused the error, is put in the pending queue and stays there. *)
Lemma chunk_after_overflow_is_retained :
  let config := {| cfg_maxStackedBuffers := Js.number 1 |} in
  let feed := [OnData 0 A false (Saturated false);
               OnData 1 B false (Saturated false)] in
  let s := run feed (constructor config) in
  let s' := step (OnData 2 C false (Saturated false)) s in
  Forall saturated_feed feed /\
  destroyed s = true /\ sendQueue s = [] /\
  sendQueue s' = [View 2] /\ contents s' (View 2) = C.
Proof.
  cbv zeta. split; [repeat constructor; discriminate|].
  vm_compute. repeat split.
Qed.

(** C4 (amended): with [maxStackedBuffers = k > 0], [k + 1] chunks that are
    not empty, fed while every push is answered "saturated" and no [_read]
    comes, destroy the stream with the backpressure error, reported once,
    and leave the queue empty; whatever comes later, the consumer is given
    nothing more (no chunk, no second error).  In any run the backpressure
    error is raised only from a live stream whose pending queue holds
    exactly [k] chunks. *)
Theorem overflow_after_k_plus_one_chunks (config : Config) (k : Z) (evs : list Event) :
  cfg_maxStackedBuffers config = Js.number k ->
  0 < k ->
  Forall saturated_feed evs ->
  Z.of_nat (length evs) = k + 1 ->
  let s := run evs (constructor config) in
  destroyed s = true /\
  count is_overflow (output s) = 1%nat /\
  sendQueue s = [] /\
  (forall evs', output (run evs' s) = output s) /\
  (forall evs0 e,
     let s0 := run evs0 (constructor config) in
     raises_overflow s0 (step e s0) ->
     Z.of_nat (length (sendQueue s0)) = k /\ destroyed s0 = false).
Proof.
  intros Hcfg Hk Hall Hlen.
  assert (maxStackedBuffers (constructor config) = Js.number k) as Hm.
  { simpl. rewrite Hcfg. unfold Js.or. simpl.
    destruct (k =? 0) eqn:Hz; [lia | reflexivity]. }
  destruct evs as [|e evs _] using rev_ind; [simpl in Hlen; lia|].
  apply Forall_app in Hall as [Hall He]. rewrite Forall_singleton in He.
  rewrite length_app in Hlen; simpl in Hlen.
  destruct (saturated_feeds_queue k evs (constructor config) Hm eq_refl eq_refl
              eq_refl Hall ltac:(lia)) as (Hm' & Hd' & He' & Hq' & Hc').
  destruct e as [ab chunk isLast [|taken]|ab chunk|os|err];
    simpl in He; try contradiction.
  pose proof (saturated_feed_step k ab chunk isLast taken (run evs (constructor config))
                He Hm' Hd' He') as Hstep.
  cbv zeta in Hstep.
  destruct (Z.of_nat (length (sendQueue (run evs (constructor config)))) =? k)
    eqn:Hfull; [|lia].
  destruct Hstep as (Hd1 & Hq1 & Hc1).
  cbv zeta. rewrite run_snoc.
  split; [exact Hd1|]. split; [rewrite Hc1, Hc'; reflexivity|].
  split; [exact Hq1|]. split.
  - intros evs'. apply run_after_destroy, Hd1.
  - intros evs0 e0. apply step_overflow.
    apply run_bounded. split; [exact Hm | simpl; lia].
Qed.

Lemma overflow_after_k_plus_one_chunks_witness :
  let config := {| cfg_maxStackedBuffers := Js.number 2 |} in
  let evs := [OnData 0 A false (Saturated false);
              OnData 1 B false (Saturated false);
              OnData 2 C false (Saturated false)] in
  destroyed (run evs (constructor config)) = true /\
  count is_overflow (output (run evs (constructor config))) = 1%nat /\
  sendQueue (run evs (constructor config)) = [].
Proof.
  intros config evs.
  assert (Forall saturated_feed evs) as Hall
    by (repeat constructor; discriminate).
  destruct (overflow_after_k_plus_one_chunks config 2 evs eq_refl ltac:(lia)
              Hall eq_refl) as (Hd & Hc & Hq & _).
  split; [exact Hd|]. split; [exact Hc | exact Hq].
Defined.

(** C9, as stated, fails: a chunk that arrives after [destroy()] is put in
    the pending queue, whatever the consumer would answer. *)
Lemma chunk_after_destroy_is_retained :
  let s := run [Destroy None] (constructor empty_config) in
  destroyed s = true /\ sendQueue s = [] /\
  Forall (fun o =>
            let s' := step (OnData 0 A false o) s in
            sendQueue s' = [View 0] /\ contents s' (View 0) = A)
         [Accepted; Saturated true; Saturated false].
Proof.
  cbv zeta. split; [vm_compute; reflexivity|]. split; [vm_compute; reflexivity|].
  constructor; [|constructor; [|constructor; [|constructor]]];
    vm_compute; split; reflexivity.
Qed.

(** C9 (amended): the step that destroys the stream leaves the pending queue
    empty, and from then on the stream stays destroyed and the consumer is
    given nothing: no later [onData] or [_read] call delivers a chunk. *)
Theorem destroy_clears_and_silences (config : Config) (evs : list Event) (e : Event) :
  let s := run evs (constructor config) in
  destroyed s = false ->
  destroyed (step e s) = true ->
  sendQueue (step e s) = [] /\
  forall evs',
    destroyed (run evs' (step e s)) = true /\
    output (run evs' (step e s)) = output (step e s) /\
    pushed (run evs' (step e s)) = pushed (step e s).
Proof.
  intros s Hd Hd'. split.
  - apply step_destroy_clears; auto.
    destruct (ended s) eqn:He; auto.
    pose proof (lc_ended_destroyed _ (reachable_lifecycle config evs) He).
    fold s in H. congruence.
  - intros evs'. destruct (run_after_destroy evs' (step e s) Hd') as [H1 H2].
    repeat split; auto. unfold pushed. rewrite H2. reflexivity.
Qed.

Lemma destroy_clears_and_silences_witness :
  let s := run [OnData 0 A false (Saturated false)] (constructor empty_config) in
  let s' := step (Destroy None) s in
  sendQueue s = [View 0] /\ sendQueue s' = [] /\
  pushed (run [OnData 1 B false Accepted; Read []] s') = [].
Proof.
  cbv zeta. split; [vm_compute; reflexivity|].
  destruct (destroy_clears_and_silences empty_config
              [OnData 0 A false (Saturated false)] (Destroy None)
              eq_refl eq_refl) as [Hq Hlater].
  split; [exact Hq|].
  destruct (Hlater [OnData 1 B false Accepted; Read []]) as (_ & _ & Hp).
  rewrite Hp. vm_compute. reflexivity.
Defined.

(** C1 fails on the code.  One chunk [A] is fed while the consumer is
    saturated; a first [_read] finds the consumer still saturated, a second
    one finds it ready.  The stream is never destroyed and the queue never
    holds more than two chunks (threshold 25), yet the consumer is given
    [A] twice when a saturated push leaves the chunk out, and four times
    when, as in Node's Readable, a saturated push takes the chunk. *)
Theorem backpressure_duplicates_chunks :
  Forall (fun taken =>
            let evs := [OnData 0 A false (Saturated taken);
                        Read [Saturated taken];
                        Read [Accepted; Accepted]] in
            let s := run evs (constructor empty_config) in
            destroyed s = false /\ sendQueue s = [] /\
            fed evs = A /\
            delivered s = (if taken then A ++ A ++ A ++ A else A ++ A) /\
            delivered s <> fed evs)
         [false; true] /\
  sendQueue (run [OnData 0 A false (Saturated false); Read [Saturated false]]
               (constructor empty_config)) = [View 0; View 0].
Proof.
  split; [|vm_compute; reflexivity].
  constructor; [|constructor; [|constructor]];
    vm_compute; repeat split; discriminate.
Qed.

(** C2 fails on the code.  When the first attempt of [_read] is answered
    "saturated", the head stays at the front of the queue, but
    [trySendChunk] also appends it to the tail, so the rest of the queue is
    not left as it was; and when the queue is at the threshold, the failed
    attempt destroys the stream and the whole queue is thrown away. *)
Theorem failed_drain_requeues_head
  (os : list PushOutcome) (taken : bool) (head : Buffer) (rest : list Buffer)
  (s : State) :
  destroyed s = false ->
  ended s = false ->
  sendQueue s = head :: rest ->
  byteLength s head <> 0%nat ->
  let s' := _read (Saturated taken :: os) s in
  if Js.strict_eq_length (length (sendQueue s)) (maxStackedBuffers s)
  then destroyed s' = true /\ sendQueue s' = [] /\
       last (output s') = Some (Destroyed (Some MaxBackpressure))
  else sendQueue s' = head :: rest ++ [head].
Proof.
  intros Hd He Hq Hlen.
  pose proof (trySendChunk_saturated taken head s Hlen Hd He) as Hsat.
  cbv zeta in *.
  destruct (trySendChunk (Saturated taken) head s) as [r s1] eqn:Hcall.
  cbn [fst snd] in Hsat. destruct Hsat as [-> Hsat].
  rewrite (read_first_attempt_fails (Saturated taken :: os) head rest s s1 Hq Hcall).
  destruct (Js.strict_eq_length (length (sendQueue s)) (maxStackedBuffers s)).
  - destruct Hsat as (Hd1 & Hq1 & _ & Hlast).
    destruct (close_after_destroy s1 Hd1) as (Hd2 & Ho2 & Hq2).
    destruct (shouldClose s1 && _); [rewrite Hd2, Ho2, Hq2|]; auto.
  - destruct Hsat as (_ & _ & Hq1 & _).
    rewrite Hq1, Hq. simpl. rewrite andb_false_r. rewrite Hq1, Hq. reflexivity.
Qed.

Lemma failed_drain_requeues_head_witness :
  let s := run [OnData 0 A false (Saturated false);
                OnData 1 B false (Saturated false)] (constructor empty_config) in
  sendQueue s = [View 0; View 1] /\
  sendQueue (_read [Saturated false] s) = [View 0; View 1; View 0].
Proof.
  cbv zeta. split; [vm_compute; reflexivity|].
  exact (failed_drain_requeues_head [] false (View 0) [View 1]
           (run [OnData 0 A false (Saturated false);
                 OnData 1 B false (Saturated false)] (constructor empty_config))
           eq_refl eq_refl eq_refl ltac:(discriminate)).
Defined.

(** C5 fails on the code.  The chunk that goes to the pending queue is the
    view [Buffer.from(chunk)] on the [ArrayBuffer] of the source, not the
    copy (the copy is what is handed to [push]); what the source writes
    into its buffer afterwards is what the queued chunk shows. *)
Theorem queued_chunk_aliases_source
  (ab : nat) (chunk : bytes) (isLast taken : bool) (s : State) :
  destroyed s = false ->
  ended s = false ->
  chunk <> [] ->
  Js.strict_eq_length (length (sendQueue s)) (maxStackedBuffers s) = false ->
  let s' := step (OnData ab chunk isLast (Saturated taken)) s in
  sendQueue s' = sendQueue s ++ [View ab] /\
  forall chunk', contents (step (SourceWrites ab chunk') s') (View ab) = chunk'.
Proof.
  intros Hd He Hne Hfull. cbv zeta. split.
  - pose proof (trySendChunk_saturated taken (View ab)
                  (set_arrayBuffers (<[ab := chunk]> (arrayBuffers s)) s)) as Hsat.
    rewrite byteLength_written in Hsat.
    specialize (Hsat ltac:(destruct chunk; [congruence | discriminate]) Hd He).
    cbv zeta in Hsat. cbn [step]. unfold onData.
    destruct (trySendChunk (Saturated taken) (View ab) _) as [r s1].
    cbn [fst snd sendQueue set_arrayBuffers output maxStackedBuffers] in Hsat.
    destruct Hsat as [_ Hsat]. rewrite Hfull in Hsat.
    destruct Hsat as (_ & _ & Hq1 & _).
    destruct isLast; [|exact Hq1].
    rewrite tryEnd_sendQueue. exact Hq1.
  - intros chunk'. cbn [step contents set_arrayBuffers arrayBuffers].
    rewrite lookup_insert_eq. reflexivity.
Qed.

Lemma queued_chunk_aliases_source_witness :
  let s := run [OnData 0 A false (Saturated false);
                SourceWrites 0 B;
                Read [Accepted]] (constructor empty_config) in
  let s0 := run [OnData 0 A false (Saturated false);
                 SourceWrites 0 [];
                 Read [Accepted]] (constructor empty_config) in
  sendQueue (step (OnData 0 A false (Saturated false)) (constructor empty_config))
  = [View 0] /\
  delivered s = B /\
  (delivered s0 = [] /\ count is_end (output s0) = 1%nat).
Proof.
  cbv zeta. split; [|vm_compute; repeat split].
  exact (proj1 (queued_chunk_aliases_source 0 A false false
                  (constructor empty_config) eq_refl eq_refl
                  ltac:(discriminate) eq_refl)).
Defined.

(** * Further properties of the class *)

(** ** Memory and output only grow *)

Ltac grows_cases :=
  unfold grows; by_cases; intros [Ha Ho]; split;
  repeat apply prefix_app_r; assumption.

Lemma step_grows e s : grows s (step e s).
Proof.
  apply (step_invariant (grows s)).
  - intros ab chunk s0 H; exact H.
  - intros o b s0. grows_cases.
  - intros s0. grows_cases.
  - intros s0 H; exact H.
  - intros s0. grows_cases.
  - intros err s0. grows_cases.
  - split; reflexivity.
Qed.

Lemma run_grows evs s : grows s (run evs s).
Proof.
  apply (run_invariant (grows s)).
  - intros ab chunk s0 H; exact H.
  - intros o b s0. grows_cases.
  - intros s0. grows_cases.
  - intros s0 H; exact H.
  - intros s0. grows_cases.
  - intros err s0. grows_cases.
  - split; reflexivity.
Qed.

Lemma owned_contents_stable s s' b :
  allocated s `prefix_of` allocated s' ->
  owned_nonempty (allocated s) b ->
  contents s' b = contents s b.
Proof.
  intros [ext Hext] Hb. destruct b as [ab|i]; simpl in *; [contradiction|].
  destruct Hb as (bs & Hi & _). rewrite Hext.
  rewrite (lookup_app_l_Some _ _ _ _ Hi), Hi. reflexivity.
Qed.

Lemma owned_fmap_contents_stable s s' (l : list Buffer) :
  allocated s `prefix_of` allocated s' ->
  Forall (owned_nonempty (allocated s)) l ->
  contents s' <$> l = contents s <$> l.
Proof.
  intros Ha Hown. induction Hown as [|b l Hb Hl IH]; [reflexivity|].
  rewrite !fmap_cons, IH, (owned_contents_stable s s' b Ha Hb). reflexivity.
Qed.

Lemma pushed_prefix s s' :
  output s `prefix_of` output s' -> pushed s `prefix_of` pushed s'.
Proof.
  intros [ext Hext]. unfold pushed. rewrite Hext, omap_app.
  apply prefix_app_r. reflexivity.
Qed.

(** What was delivered stays delivered, byte for byte. *)
Lemma delivered_grows s s' :
  pushed_owned s -> grows s s' -> delivered s `prefix_of` delivered s'.
Proof.
  intros Hown [Ha Ho]. destruct (pushed_prefix s s' Ho) as [new Hnew].
  unfold delivered. rewrite Hnew, fmap_app, concat_app.
  apply prefix_app_r.
  rewrite (owned_fmap_contents_stable s s' (pushed s) Ha Hown). reflexivity.
Qed.

(** X1: [createBufferCopy] returns a buffer with the bytes of the one it is
    given, in memory that was not in use; every other buffer, the copied one
    included, shows what it showed before, and what the source writes into
    any of its [ArrayBuffer]s afterwards does not reach the copy. *)
Theorem createBufferCopy_independent_copy (buffer : Buffer) (s : State) :
  let copy := (createBufferCopy buffer s).1 in
  let s' := (createBufferCopy buffer s).2 in
  contents s copy = [] /\
  contents s' copy = contents s buffer /\
  (forall b, b <> copy -> contents s' b = contents s b) /\
  (forall ab chunk, contents (step (SourceWrites ab chunk) s') copy
                    = contents s buffer).
Proof.
  cbv zeta. unfold createBufferCopy. cbn [fst snd].
  assert (forall (a : list bytes) c, (a ++ [c]) !! length a = Some c) as Hnew.
  { intros a c. rewrite lookup_app_r by lia. rewrite Nat.sub_diag. reflexivity. }
  repeat split.
  - cbn [contents]. rewrite lookup_ge_None_2 by apply Nat.le_refl. reflexivity.
  - cbn [contents set_allocated allocated]. rewrite Hnew. reflexivity.
  - intros [ab|i] Hne; cbn [contents set_allocated allocated arrayBuffers];
      [reflexivity|].
    destruct (decide (i < length (allocated s))%nat) as [Hlt|Hge].
    + rewrite lookup_app_l by exact Hlt. reflexivity.
    + assert (i <> length (allocated s)) by congruence.
      rewrite !lookup_ge_None_2; [reflexivity | |];
        rewrite ?length_app; simpl; unfold bytes in *; lia.
  - intros ab chunk. cbn [step contents set_arrayBuffers set_allocated allocated].
    rewrite Hnew. reflexivity.
Qed.

(** X2: what the consumer has been given is never taken back or altered: in
    every run the bytes delivered so far are a prefix of the bytes delivered
    after any further events, whatever the source does with its buffers. *)
Theorem delivered_only_grows (config : Config) (evs evs' : list Event) :
  delivered (run evs (constructor config))
  `prefix_of` delivered (run (evs ++ evs') (constructor config)).
Proof.
  rewrite run_app. apply delivered_grows.
  - apply run_pushed_owned. constructor.
  - apply run_grows.
Qed.

(** ** A consumer that takes every chunk *)

Lemma trySendChunk_accepted b s :
  byteLength s b <> 0%nat -> live s ->
  trySendChunk Accepted b s =
  (true, emit (Data (Alloc (length (allocated s))))
           (set_allocated (allocated s ++ [contents s b]) s)).
Proof.
  intros Hlen [Hd He]. apply Nat.eqb_neq in Hlen.
  unfold trySendChunk. rewrite Hlen.
  unfold createBufferCopy, push. simpl. rewrite He, Hd. reflexivity.
Qed.

Lemma pushed_emit x s :
  pushed (emit x s) = pushed s ++ match data_of x with Some b => [b] | None => [] end.
Proof.
  unfold pushed, emit; simpl. rewrite omap_app. simpl.
  destruct (data_of x); reflexivity.
Qed.

Lemma delivered_emit_copy c s :
  pushed_owned s ->
  delivered (emit (Data (Alloc (length (allocated s))))
               (set_allocated (allocated s ++ [c]) s))
  = delivered s ++ c.
Proof.
  intros Hown. unfold delivered. rewrite pushed_emit. cbn [data_of].
  rewrite fmap_app, concat_app.
  rewrite (owned_fmap_contents_stable s _ (pushed s)); [| |exact Hown].
  - f_equal. cbn. rewrite lookup_app_r by apply Nat.le_refl.
    rewrite Nat.sub_diag.
    cbn. apply app_nil_r.
  - cbn. apply prefix_app_r. reflexivity.
Qed.

Lemma delivered_same_memory s s' :
  allocated s' = allocated s -> pushed s' = pushed s -> pushed_owned s ->
  delivered s' = delivered s.
Proof.
  intros Ha Hp Hown. unfold delivered. rewrite Hp. f_equal.
  apply owned_fmap_contents_stable; [rewrite Ha; reflexivity | exact Hown].
Qed.

(** One chunk that is not empty, taken at once by the consumer of a live
    stream. *)
Lemma onData_accepted (ab : nat) (chunk : bytes) (s : State) :
  live s -> chunk <> [] -> pushed_owned s ->
  let s0 := set_arrayBuffers (<[ab := chunk]> (arrayBuffers s)) s in
  let s1 := emit (Data (Alloc (length (allocated s))))
                 (set_allocated (allocated s ++ [chunk]) s0) in
  trySendChunk Accepted (View ab) s0 = (true, s1) /\
  delivered s1 = delivered s ++ chunk /\
  pushed_owned s1 /\
  contents s1 (Alloc (length (allocated s))) = chunk.
Proof.
  intros Hlive Hne Hown s0 s1.
  assert (contents s0 (View ab) = chunk) as Hc.
  { unfold s0. cbn [contents set_arrayBuffers arrayBuffers].
    rewrite lookup_insert_eq. reflexivity. }
  assert (byteLength s0 (View ab) <> 0%nat) as Hlen.
  { unfold byteLength. rewrite Hc. destruct chunk; [congruence | discriminate]. }
  pose proof (trySendChunk_accepted (View ab) s0 Hlen Hlive) as Hcall.
  rewrite Hc in Hcall.
  pose proof (trySendChunk_pushed_owned Accepted (View ab) s0 Hown) as Hown1.
  rewrite Hcall in Hown1. cbn [snd] in Hown1.
  split; [exact Hcall|]. split; [|split; [exact Hown1|]].
  - transitivity (delivered s0 ++ chunk).
    + exact (delivered_emit_copy chunk s0 Hown).
    + f_equal. apply delivered_same_memory; auto.
  - unfold s1. cbn [contents emit set_allocated allocated].
    rewrite lookup_app_r by apply Nat.le_refl. rewrite Nat.sub_diag. reflexivity.
Qed.

(** [tryEnd] on a live stream with nothing pending closes it: end-of-data,
    then the plain end of the stream. *)
Lemma tryEnd_closes s :
  live s -> sendQueue s = [] ->
  output (tryEnd s) = output s ++ [EndOfData; Destroyed None] /\
  destroyed (tryEnd s) = true /\ sendQueue (tryEnd s) = [] /\
  allocated (tryEnd s) = allocated s /\ pushed (tryEnd s) = pushed s.
Proof.
  intros [Hd He] Hq. unfold pushed, tryEnd, close, push_null, destroy, _destroy.
  simpl. rewrite Hq, He, Hd. simpl. rewrite Hd. simpl.
  rewrite <- app_assoc. repeat split; auto.
  rewrite omap_app. simpl. apply app_nil_r.
Qed.

Lemma fed_snoc evs e : fed (evs ++ [e]) = fed evs ++ fed_chunk e.
Proof.
  unfold fed. rewrite fmap_app, concat_app. simpl. rewrite app_nil_r. reflexivity.
Qed.

Lemma read_idle os s :
  sendQueue s = [] -> shouldClose s = false -> _read os s = s.
Proof.
  intros Hq Hc. unfold _read. rewrite Hq. simpl. rewrite Hc. reflexivity.
Qed.

Lemma ready_run evs s :
  live s -> sendQueue s = [] -> shouldClose s = false -> pushed_owned s ->
  Forall (fun x => is_data x = true) (output s) ->
  Forall ready_event evs ->
  live (run evs s) /\ sendQueue (run evs s) = [] /\
  shouldClose (run evs s) = false /\ pushed_owned (run evs s) /\
  delivered (run evs s) = delivered s ++ fed evs /\
  Forall (fun x => is_data x = true) (output (run evs s)).
Proof.
  intros Hlive Hq Hc Hown Hdata.
  induction evs as [|e evs IH] using rev_ind; intros Hall.
  - cbn [run fold_left]. unfold fed. cbn [fmap list_fmap concat].
    rewrite app_nil_r. auto 10.
  - apply Forall_app in Hall as [Hall He]. rewrite Forall_singleton in He.
    destruct (IH Hall) as (Hl1 & Hq1 & Hc1 & Hown1 & Hdel1 & Hdata1).
    rewrite run_snoc, fed_snoc.
    destruct e as [ab chunk [|] [|taken]|ab chunk|os|err];
      cbn [ready_event] in He; try contradiction.
    + destruct (onData_accepted ab chunk (run evs s) Hl1 He Hown1)
        as (Hcall & Hdel & Hown2 & _).
      cbn [step]. unfold onData. cbv zeta in Hcall. rewrite Hcall.
      split; [exact Hl1|]. split; [exact Hq1|]. split; [exact Hc1|].
      split; [exact Hown2|]. split.
      * cbv zeta in Hdel. rewrite Hdel, Hdel1, <- app_assoc. reflexivity.
      * cbn [output emit set_allocated set_arrayBuffers].
        apply Forall_app. split; [exact Hdata1|]. repeat constructor.
    + cbn [step fed_chunk]. rewrite app_nil_r.
      split; [exact Hl1|]. split; [exact Hq1|]. split; [exact Hc1|].
      split; [exact Hown1|]. split; [|exact Hdata1].
      rewrite <- Hdel1. apply delivered_same_memory; auto.
    + cbn [step fed_chunk]. rewrite app_nil_r, (read_idle os _ Hq1 Hc1).
      repeat split; try apply Hl1; auto.
Qed.

Lemma constructor_live config : live (constructor config).
Proof. split; reflexivity. Qed.

Lemma reachable_pushed_owned config evs : pushed_owned (run evs (constructor config)).
Proof. apply run_pushed_owned. constructor. Qed.

(** X3: while every chunk is taken at once ([push] returns [true]) and no
    chunk is empty or final, the consumer has received exactly the bytes the
    source fed, in the order of arrival, nothing is pending, the stream is
    live, and the consumer was given nothing but data; the source may reuse
    its buffers between the calls and [_read] may come at any time. *)
Theorem ready_consumer_receives_what_was_fed (config : Config) (evs : list Event) :
  Forall ready_event evs ->
  let s := run evs (constructor config) in
  delivered s = fed evs /\
  sendQueue s = [] /\
  live s /\
  Forall (fun x => is_data x = true) (output s).
Proof.
  intros Hall.
  destruct (ready_run evs (constructor config) (constructor_live config)
              eq_refl eq_refl (List.Forall_nil _) (List.Forall_nil _) Hall)
    as (Hl & Hq & _ & _ & Hdel & Hdata).
  cbv zeta. auto.
Qed.

Lemma ready_consumer_receives_what_was_fed_witness :
  let evs := [OnData 0 A false Accepted; SourceWrites 0 B; Read [];
              OnData 0 C false Accepted] in
  delivered (run evs (constructor empty_config)) = A ++ C.
Proof.
  intros evs.
  assert (Forall ready_event evs) as Hall
    by (repeat constructor; discriminate).
  exact (proj1 (ready_consumer_receives_what_was_fed empty_config evs Hall)).
Defined.

(** X4: a final chunk that is not empty, arriving at a live stream with
    nothing pending and taken at once, is delivered and the stream is closed
    in the same call: the consumer is given the chunk, then end-of-data,
    then the end of the stream without an error. *)
Theorem final_chunk_closes_at_once
  (config : Config) (evs : list Event) (ab : nat) (chunk : bytes) :
  let s := run evs (constructor config) in
  live s -> sendQueue s = [] -> chunk <> [] ->
  let s' := step (OnData ab chunk true Accepted) s in
  output s' = output s ++ [Data (Alloc (length (allocated s)));
                           EndOfData; Destroyed None] /\
  delivered s' = delivered s ++ chunk /\
  sendQueue s' = [] /\ destroyed s' = true.
Proof.
  intros s Hlive Hq Hne s'.
  destruct (onData_accepted ab chunk s Hlive Hne
              (reachable_pushed_owned config evs)) as (Hcall & Hdel & Hown & _).
  cbv zeta in Hcall, Hdel, Hown.
  unfold s'. cbn [step]. unfold onData. rewrite Hcall.
  match goal with |- context [tryEnd ?x] => set (s1 := x) in * end.
  destruct (tryEnd_closes s1 Hlive Hq) as (Ho & Hd & Hq' & Ha & Hp).
  split; [|split; [|split]]; auto.
  - rewrite Ho. unfold s1. cbn [output emit set_allocated set_arrayBuffers].
    rewrite <- app_assoc. reflexivity.
  - rewrite <- Hdel. apply delivered_same_memory; auto.
Qed.

Lemma final_chunk_closes_at_once_witness :
  let s := run [OnData 0 A false Accepted] (constructor empty_config) in
  output (step (OnData 1 B true Accepted) s)
  = [Data (Alloc 0); Data (Alloc 1); EndOfData; Destroyed None] /\
  delivered (step (OnData 1 B true Accepted) s) = A ++ B.
Proof.
  intros s.
  destruct (final_chunk_closes_at_once empty_config [OnData 0 A false Accepted]
              1 B (constructor_live _) eq_refl ltac:(discriminate))
    as (Ho & Hdel & _).
  split; [exact Ho | exact Hdel].
Defined.

(** X5: [onData] does not look at the pending queue before it pushes: on a
    live stream a chunk that the consumer takes is delivered at once, ahead
    of every chunk still pending, and the queue is left as it is. *)
Theorem accepted_chunk_overtakes_pending
  (config : Config) (evs : list Event) (ab : nat) (chunk : bytes) :
  let s := run evs (constructor config) in
  live s -> chunk <> [] ->
  let s' := step (OnData ab chunk false Accepted) s in
  sendQueue s' = sendQueue s /\
  pushed s' = pushed s ++ [Alloc (length (allocated s))] /\
  delivered s' = delivered s ++ chunk /\
  live s'.
Proof.
  intros s Hlive Hne s'.
  destruct (onData_accepted ab chunk s Hlive Hne
              (reachable_pushed_owned config evs)) as (Hcall & Hdel & _ & _).
  cbv zeta in Hcall, Hdel.
  unfold s'. cbn [step]. unfold onData. rewrite Hcall.
  split; [reflexivity|]. split; [|split; [exact Hdel | exact Hlive]].
  rewrite pushed_emit. reflexivity.
Qed.

Lemma accepted_chunk_overtakes_pending_witness :
  let s := run [OnData 0 A false (Saturated false)] (constructor empty_config) in
  let s' := step (OnData 1 B false Accepted) s in
  sendQueue s = [View 0] /\ delivered s = [] /\
  sendQueue s' = [View 0] /\ delivered s' = B /\
  delivered (step (Read []) s') = B ++ A.
Proof.
  intros s s'.
  assert (live s) as Hlive by (split; vm_compute; reflexivity).
  destruct (accepted_chunk_overtakes_pending empty_config
              [OnData 0 A false (Saturated false)] 1 B Hlive
              ltac:(discriminate)) as (Hq & _ & Hdel & _).
  split; [vm_compute; reflexivity|]. split; [vm_compute; reflexivity|].
  split; [exact Hq|]. split; [exact Hdel|]. vm_compute. reflexivity.
Defined.

(** X6: an empty chunk ends the stream even when it is not marked final: it
    sets the closing flag and delivers nothing; on a live stream with
    nothing pending the consumer is given end-of-data and the stream is
    destroyed in that call, and with chunks pending the call changes nothing
    else. *)
Theorem empty_chunk_ends_the_stream
  (ab : nat) (isLast : bool) (o : PushOutcome) (s : State) :
  live s ->
  let s' := step (OnData ab [] isLast o) s in
  shouldClose s' = true /\
  pushed s' = pushed s /\
  sendQueue s' = sendQueue s /\
  (sendQueue s = [] ->
   output s' = output s ++ [EndOfData; Destroyed None] /\ destroyed s' = true) /\
  (sendQueue s <> [] -> output s' = output s /\ live s').
Proof.
  intros Hlive s'.
  set (s0 := set_arrayBuffers (<[ab := ([] : bytes)]> (arrayBuffers s)) s).
  assert (byteLength s0 (View ab) = 0%nat) as Hlen
    by (unfold s0; rewrite byteLength_written; reflexivity).
  assert (s' = if isLast then tryEnd (tryEnd s0) else tryEnd s0) as ->.
  { unfold s'. cbn [step]. fold s0. unfold onData, trySendChunk.
    rewrite Hlen. reflexivity. }
  assert (live s0) as Hlive0 by exact Hlive.
  destruct (sendQueue s) as [|h q] eqn:Hq.
  - destruct (tryEnd_closes s0 Hlive0 Hq) as (Ho & Hd & Hq' & _ & Hp).
    destruct (tryEnd_after_destroy (tryEnd s0) Hd) as [Hd2 Ho2].
    destruct isLast; rewrite ?tryEnd_shouldClose, ?tryEnd_sendQueue;
      unfold pushed in *; rewrite ?Ho2; repeat split; auto; congruence.
  - assert (sendQueue s0 <> []) as Hne by (unfold s0; simpl; congruence).
    rewrite !(tryEnd_pending s0 Hne).
    assert (tryEnd (set_shouldClose true s0) = set_shouldClose true s0) as Hagain.
    { rewrite tryEnd_pending by exact Hne. reflexivity. }
    destruct isLast; rewrite ?Hagain; repeat split; auto;
      try discriminate; apply Hlive.
Qed.

Lemma empty_chunk_ends_the_stream_witness :
  let s := run [OnData 0 A false Accepted] (constructor empty_config) in
  output (step (OnData 1 [] false Accepted) s)
  = [Data (Alloc 0); EndOfData; Destroyed None].
Proof.
  intros s.
  destruct (empty_chunk_ends_the_stream 1 false Accepted s
              ltac:(split; vm_compute; reflexivity)) as (_ & _ & _ & Hclose & _).
  destruct (Hclose eq_refl) as [Ho _]. exact Ho.
Defined.

(** ** A drain whose attempts all succeed *)

Lemma nonempty_contents_stable s s' b :
  arrayBuffers s' = arrayBuffers s ->
  allocated s `prefix_of` allocated s' ->
  byteLength s b <> 0%nat ->
  contents s' b = contents s b.
Proof.
  intros Hab [ext Hext] Hlen. destruct b as [ab|i]; simpl.
  - rewrite Hab. reflexivity.
  - unfold byteLength in Hlen. simpl in Hlen.
    destruct (allocated s !! i) as [bs|] eqn:Hi; [|simpl in Hlen; congruence].
    rewrite Hext, (lookup_app_l_Some _ _ _ _ Hi). reflexivity.
Qed.

Lemma close_live s :
  live s ->
  output (close s) = output s ++ [EndOfData; Destroyed None] /\
  destroyed (close s) = true /\ sendQueue (close s) = [] /\
  allocated (close s) = allocated s /\ pushed (close s) = pushed s.
Proof.
  intros [Hd He]. unfold pushed, close, push_null, destroy, _destroy.
  simpl. rewrite He, Hd. simpl. rewrite Hd. simpl.
  rewrite <- app_assoc. repeat split; auto.
  rewrite omap_app. simpl. apply app_nil_r.
Qed.

Lemma next_outcome_accepted os :
  Forall (eq Accepted) os -> next_outcome os = Accepted /\ Forall (eq Accepted) (tail os).
Proof.
  intros Hos. destruct Hos as [|o os Ho Hos]; simpl; auto.
Qed.

Lemma read_loop_all_accepted n os s :
  Forall (eq Accepted) os ->
  live s -> pushed_owned s ->
  Forall (fun b => byteLength s b <> 0%nat) (sendQueue s) ->
  (length (sendQueue s) <= n)%nat ->
  let s1 := read_loop n os s in
  live s1 /\ sendQueue s1 = [] /\ shouldClose s1 = shouldClose s /\
  pushed_owned s1 /\
  delivered s1 = delivered s ++ concat (contents s <$> sendQueue s).
Proof.
  revert os s. induction n as [|n IH]; intros os s Hos Hlive Hown Hne Hn.
  - destruct (sendQueue s) as [|h q] eqn:Hq; [|simpl in Hn; lia].
    simpl. rewrite Hq. simpl. rewrite app_nil_r. auto.
  - destruct (sendQueue s) as [|h q] eqn:Hq.
    + simpl. rewrite Hq. simpl. rewrite app_nil_r. auto.
    + cbn [read_loop]. rewrite Hq.
      destruct (next_outcome_accepted os Hos) as [-> Hos'].
      apply Forall_cons in Hne as [Hh Hrest].
      rewrite (trySendChunk_accepted h s Hh Hlive).
      set (s2 := splice_head _).
      assert (grows s s2) as [Ha Ho].
      { unfold s2, grows. cbn. split; apply prefix_app_r; reflexivity. }
      assert (sendQueue s2 = q) as Hq2 by (unfold s2; cbn; rewrite Hq; reflexivity).
      assert (pushed_owned s2) as Hown2.
      { pose proof (trySendChunk_pushed_owned Accepted h s Hown) as H.
        rewrite (trySendChunk_accepted h s Hh Hlive) in H. exact H. }
      assert (delivered s2 = delivered s ++ contents s h) as Hdel2
        by exact (delivered_emit_copy (contents s h) s Hown).
      assert (Forall (fun b => contents s2 b = contents s b) q) as Hsame.
      { eapply Forall_impl; [exact Hrest|]. intros b Hb.
        apply nonempty_contents_stable; auto. }
      assert (contents s2 <$> q = contents s <$> q) as Hfmap.
      { clear -Hsame. induction Hsame as [|b l Hb Hl IHl]; [reflexivity|].
        rewrite !fmap_cons, IHl, Hb. reflexivity. }
      destruct (IH (tail os) s2 Hos' Hlive Hown2) as (Hl3 & Hq3 & Hc3 & Hown3 & Hdel3).
      { rewrite Hq2. clear -Hrest Hsame.
        induction Hrest as [|b l Hb Hl IHl]; constructor.
        - apply Forall_cons in Hsame as [Heq _].
          unfold byteLength in *. rewrite Heq. exact Hb.
        - apply Forall_cons in Hsame as [_ Hsame]. auto. }
      { rewrite Hq2. simpl in Hn. lia. }
      cbv zeta in *. repeat split; try apply Hl3; auto.
      rewrite Hdel3, Hdel2, Hq2, Hfmap, fmap_cons. simpl.
      rewrite <- app_assoc. reflexivity.
Qed.

(** X7: when every attempt of a [_read] succeeds on a live stream whose
    pending chunks are not empty, the whole queue is delivered, oldest chunk
    first, with the bytes the chunks show at that moment, and the queue is
    left empty; if the closing flag was set the consumer is then given
    end-of-data and the stream is destroyed, otherwise the stream stays
    live. *)
Theorem successful_drain_delivers_queue_in_order
  (config : Config) (evs : list Event) (os : list PushOutcome) :
  let s := run evs (constructor config) in
  live s ->
  Forall (eq Accepted) os ->
  Forall (fun b => byteLength s b <> 0%nat) (sendQueue s) ->
  let s' := _read os s in
  sendQueue s' = [] /\
  delivered s' = delivered s ++ concat (contents s <$> sendQueue s) /\
  if shouldClose s
  then signals_end s s' /\ destroyed s' = true
  else live s' /\ ~ signals_end s s'.
Proof.
  intros s Hlive Hos Hne s'.
  destruct (read_loop_all_accepted (length (sendQueue s)) os s Hos Hlive
              (reachable_pushed_owned config evs) Hne (le_n _))
    as (Hl1 & Hq1 & Hc1 & Hown1 & Hdel1).
  pose proof (read_loop_end (length (sendQueue s)) os s) as Hend.
  unfold s', _read. cbv zeta in *.
  set (s1 := read_loop (length (sendQueue s)) os s) in *.
  rewrite Hc1, Hq1. simpl. rewrite andb_true_r.
  destruct (shouldClose s).
  - destruct (close_live s1 Hl1) as (Ho & Hd & Hq & Ha & Hp).
    split; [exact Hq|]. split.
    + rewrite <- Hdel1. apply delivered_same_memory; auto.
    + split; [|exact Hd]. unfold signals_end. rewrite Ho, count_app, Hend.
      unfold count; simpl. lia.
  - split; [exact Hq1|]. split; [exact Hdel1|]. split; [exact Hl1|].
    unfold signals_end. rewrite Hend. lia.
Qed.

Lemma successful_drain_delivers_queue_in_order_witness :
  let s := run [OnData 0 A false (Saturated false);
                OnData 1 B true (Saturated false)] (constructor empty_config) in
  sendQueue s = [View 0; View 1] /\
  sendQueue (_read [] s) = [] /\
  delivered (_read [] s) = A ++ B /\
  destroyed (_read [] s) = true.
Proof.
  intros s.
  assert (live s) as Hlive by (split; vm_compute; reflexivity).
  assert (Forall (fun b => byteLength s b <> 0%nat) (sendQueue s)) as Hne
    by (vm_compute; repeat constructor; discriminate).
  destruct (successful_drain_delivers_queue_in_order empty_config
              [OnData 0 A false (Saturated false);
               OnData 1 B true (Saturated false)] [] Hlive (List.Forall_nil _) Hne)
    as (Hq & Hdel & Hclose).
  split; [vm_compute; reflexivity|]. split; [exact Hq|].
  split; [exact Hdel|]. exact (proj2 Hclose).
Defined.

(** X8: a pending chunk whose buffer has become empty (the source detached
    or emptied its [ArrayBuffer]) is taken out of the queue by [_read]
    without being pushed, and it sets the closing flag: [_read] goes on as
    if it had been called on the rest of the queue with the flag set.  When
    it was the only pending chunk of a live stream, the consumer is given
    end-of-data at once. *)
Theorem read_skips_emptied_head
  (os : list PushOutcome) (head : Buffer) (rest : list Buffer) (s : State) :
  sendQueue s = head :: rest ->
  byteLength s head = 0%nat ->
  _read os s = _read (tail os) (splice_head (set_shouldClose true s)) /\
  sendQueue (splice_head (set_shouldClose true s)) = rest /\
  (rest = [] -> live s ->
   output (_read os s) = output s ++ [EndOfData; Destroyed None]).
Proof.
  intros Hq Hlen.
  assert (trySendChunk (next_outcome os) head s = (true, set_shouldClose true s))
    as Hcall.
  { unfold trySendChunk. rewrite Hlen. cbn [Nat.eqb].
    rewrite tryEnd_pending by (rewrite Hq; discriminate). reflexivity. }
  assert (_read os s = _read (tail os) (splice_head (set_shouldClose true s)))
    as Heq.
  { unfold _read at 1. rewrite read_loop_unfold, Hq, Hcall. reflexivity. }
  split; [exact Heq|]. split.
  - unfold splice_head. cbn. rewrite Hq. reflexivity.
  - intros -> Hlive. rewrite Heq. unfold _read.
    assert (sendQueue (splice_head (set_shouldClose true s)) = []) as Hnil
      by (unfold splice_head; cbn; rewrite Hq; reflexivity).
    rewrite Hnil. cbn [length read_loop].
    rewrite Hnil. cbn [length Nat.eqb andb].
    change (shouldClose (splice_head (set_shouldClose true s))) with true.
    cbn [andb].
    destruct (close_live (splice_head (set_shouldClose true s)) Hlive)
      as (Ho & _). exact Ho.
Qed.

Lemma read_skips_emptied_head_witness :
  let s := run [OnData 0 A false (Saturated false); SourceWrites 0 []]
               (constructor empty_config) in
  sendQueue s = [View 0] /\
  output (_read [] s) = [EndOfData; Destroyed None] /\
  delivered (_read [] s) = [].
Proof.
  intros s.
  destruct (read_skips_emptied_head [] (View 0) [] s eq_refl eq_refl)
    as (_ & _ & Hclose).
  split; [vm_compute; reflexivity|]. split.
  - exact (Hclose eq_refl ltac:(split; vm_compute; reflexivity)).
  - vm_compute. reflexivity.
Defined.

(** ** Invariants that depend on which errors come from outside *)

Section InvariantExternal.

Variable I : State -> Prop.

Hypothesis I_write : forall ab chunk s,
  I s -> I (set_arrayBuffers (<[ab := chunk]> (arrayBuffers s)) s).
Hypothesis I_trySendChunk : forall o b s, I s -> I (trySendChunk o b s).2.
Hypothesis I_tryEnd : forall s, I s -> I (tryEnd s).
Hypothesis I_splice : forall s, I s -> I (splice_head s).
Hypothesis I_close : forall s, I s -> I (close s).
Hypothesis I_destroy : forall msg s, I s -> I (destroy (External <$> msg) s).

Lemma step_invariant_external e s : I s -> I (step e s).
Proof using All.
  intros Hs. destruct e as [ab chunk isLast o|ab chunk|os|err]; simpl; auto.
  - unfold onData.
    pose proof (I_trySendChunk o (View ab) _ (I_write ab chunk s Hs)) as H1.
    destruct (trySendChunk o (View ab) _) as [r s1]; simpl in H1.
    destruct isLast; auto.
  - unfold _read.
    pose proof (read_loop_invariant I I_trySendChunk I_splice
                  (length (sendQueue s)) os s Hs) as H1.
    destruct (_ && _); auto.
Qed.

Lemma run_invariant_external evs s : I s -> I (run evs s).
Proof using All.
  revert s. induction evs as [|e evs IH]; intros s Hs; simpl; auto.
  apply IH, step_invariant_external, Hs.
Qed.

End InvariantExternal.

(** ** A threshold that no queue length equals *)

Lemma run_maxStackedBuffers evs s : maxStackedBuffers (run evs s) = maxStackedBuffers s.
Proof.
  apply (run_invariant (fun s' => maxStackedBuffers s' = maxStackedBuffers s));
    auto; intros; by_cases; auto.
Qed.

Lemma run_never_overflows evs s :
  never_reached (maxStackedBuffers s) ->
  count is_overflow (output s) = 0%nat ->
  never_reached (maxStackedBuffers (run evs s)) /\
  count is_overflow (output (run evs s)) = 0%nat.
Proof.
  intros Hnr Hc.
  apply (run_invariant_external
           (fun s' => never_reached (maxStackedBuffers s') /\
                      count is_overflow (output s') = 0%nat)); auto.
  - intros o b s0 [Hn H0]. pose proof (Hn (length (sendQueue s0))) as Hq.
    pose proof (Hn 0%nat) as Hz.
    by_cases; rewrite ?count_snoc; simpl; split; auto; try lia; congruence.
  - intros s0 [Hn H0]. by_cases; rewrite ?count_snoc; simpl; split; auto; lia.
  - intros s0 [Hn H0]. by_cases; rewrite ?count_snoc; simpl; split; auto; lia.
  - intros msg s0 [Hn H0]. destruct msg;
      by_cases; rewrite ?count_snoc; simpl; split; auto; lia.
Qed.

Lemma saturated_feeds_grow evs s :
  never_reached (maxStackedBuffers s) ->
  live s ->
  Forall saturated_feed evs ->
  live (run evs s) /\
  length (sendQueue (run evs s)) = (length (sendQueue s) + length evs)%nat.
Proof.
  intros Hnr Hlive. induction evs as [|e evs IH] using rev_ind; intros Hall.
  - simpl. split; [exact Hlive | lia].
  - apply Forall_app in Hall as [Hall He]. rewrite Forall_singleton in He.
    destruct (IH Hall) as [Hl1 Hlen1].
    rewrite run_snoc.
    destruct e as [ab chunk isLast [|taken]|ab chunk|os|err];
      simpl in He; try contradiction.
    pose proof (trySendChunk_saturated taken (View ab)
                  (set_arrayBuffers (<[ab := chunk]> (arrayBuffers (run evs s)))
                     (run evs s))) as Hsat.
    rewrite byteLength_written in Hsat.
    specialize (Hsat ltac:(destruct chunk; [congruence | discriminate])
                     (proj1 Hl1) (proj2 Hl1)).
    cbv zeta in Hsat. cbn [step]. unfold onData.
    destruct (trySendChunk (Saturated taken) (View ab) _) as [r s1].
    cbn [fst snd sendQueue set_arrayBuffers output maxStackedBuffers] in Hsat.
    destruct Hsat as [_ Hsat].
    pose proof Hnr as Hnr1. rewrite <- (run_maxStackedBuffers evs s) in Hnr1.
    rewrite (Hnr1 (length (sendQueue (run evs s)))) in Hsat.
    destruct Hsat as (Hd1 & He1 & Hq1 & _).
    assert (live s1) as Hl2 by (split; assumption).
    assert (length (sendQueue s1)
            = (length (sendQueue s) + length (evs ++ [OnData ab chunk isLast (Saturated taken)]))%nat)
      as Hlen2.
    { rewrite Hq1, !length_app, Hlen1. simpl. lia. }
    destruct isLast; [|split; assumption].
    rewrite tryEnd_pending
      by (rewrite Hq1; destruct (sendQueue (run evs s)); discriminate).
    split; [exact Hl2 | exact Hlen2].
Qed.

(** X9: when the stored threshold is a value that no array length is
    [===] to (a string, a negative number, [true], an object), the bound is
    off: no run ever raises the backpressure error, and chunks fed to a
    saturated consumer pile up in the pending queue without limit. *)
Theorem unreachable_threshold_disables_the_bound (config : Config) :
  never_reached (maxStackedBuffers (constructor config)) ->
  (forall evs,
     count is_overflow (output (run evs (constructor config))) = 0%nat) /\
  (forall evs,
     Forall saturated_feed evs ->
     length (sendQueue (run evs (constructor config))) = length evs /\
     live (run evs (constructor config))).
Proof.
  intros Hnr. split.
  - intros evs. apply run_never_overflows; [exact Hnr | reflexivity].
  - intros evs Hall.
    destruct (saturated_feeds_grow evs (constructor config) Hnr
                (constructor_live config) Hall) as [Hl Hlen].
    split; [exact Hlen | exact Hl].
Qed.

Lemma unreachable_threshold_disables_the_bound_witness :
  let config := {| cfg_maxStackedBuffers := Js.str "2" |} in
  let evs := [OnData 0 A false (Saturated false);
              OnData 1 B false (Saturated false);
              OnData 2 C false (Saturated false)] in
  length (sendQueue (run evs (constructor config))) = 3%nat /\
  count is_overflow (output (run evs (constructor config))) = 0%nat.
Proof.
  intros config evs.
  assert (never_reached (maxStackedBuffers (constructor config))) as Hnr
    by (intros n; reflexivity).
  destruct (unreachable_threshold_disables_the_bound config Hnr) as [Hnone Hgrow].
  split; [|exact (Hnone evs)].
  apply Hgrow. repeat constructor; discriminate.
Defined.

(** ** The end of the stream *)

Ltac terminal_cases :=
  unfold terminal; by_cases; intros (H1 & H2 & H3);
  rewrite ?count_snoc, ?last_snoc; simpl; use_premises;
  repeat split; eauto; try lia; try congruence;
  try (destruct H3 as [? ?]; eauto; lia).

Lemma trySendChunk_terminal o b s : terminal s -> terminal (trySendChunk o b s).2.
Proof. terminal_cases. Qed.

Lemma tryEnd_terminal s : terminal s -> terminal (tryEnd s).
Proof. terminal_cases. Qed.

Lemma close_terminal s : terminal s -> terminal (close s).
Proof. terminal_cases. Qed.

Lemma destroy_external_terminal msg s :
  terminal s -> terminal (destroy (External <$> msg) s).
Proof. destruct msg; terminal_cases. Qed.

Lemma run_terminal evs s : terminal s -> terminal (run evs s).
Proof.
  apply run_invariant_external.
  - intros ab chunk s0 H; exact H.
  - apply trySendChunk_terminal.
  - apply tryEnd_terminal.
  - intros s0 H; exact H.
  - apply close_terminal.
  - apply destroy_external_terminal.
Qed.

(** X10: in every run the end of the stream is reported to the consumer
    exactly when the stream is destroyed, once, and as the last signal;
    while the stream is not destroyed no end is reported; and the bridge
    never makes the Readable raise its push-after-end error, so the only
    errors a consumer can see are the backpressure error and an error given
    to [destroy] from outside. *)
Theorem stream_end_reported_once (config : Config) (evs : list Event) :
  let s := run evs (constructor config) in
  count is_push_after_eof (output s) = 0%nat /\
  count is_destroyed (output s) = (if destroyed s then 1 else 0)%nat /\
  (if destroyed s
   then exists e, last (output s) = Some (Destroyed e)
   else True).
Proof.
  intros s.
  assert (terminal s) as (_ & Hpae & Hd).
  { apply run_terminal. unfold terminal. simpl. repeat split; auto; discriminate. }
  split; [exact Hpae|].
  destruct (destroyed s); [destruct Hd as [Hone Hlast]|]; auto.
Qed.

(** ** Flags are never reset *)

Lemma run_flags evs s :
  (shouldClose s = true -> shouldClose (run evs s) = true) /\
  (ended s = true -> ended (run evs s) = true) /\
  (destroyed s = true -> destroyed (run evs s) = true).
Proof.
  apply (run_invariant
           (fun s' => (shouldClose s = true -> shouldClose s' = true) /\
                      (ended s = true -> ended s' = true) /\
                      (destroyed s = true -> destroyed s' = true)));
    auto; intros; by_cases; intuition congruence.
Qed.

(** X11: closing cannot be undone and the threshold cannot change: over any
    events, the closing flag, the ended flag and the destroyed flag, once
    set, stay set, and [#maxStackedBuffers] keeps the value the constructor
    stored. *)
Theorem flags_are_never_reset (evs : list Event) (s : State) :
  let s' := run evs s in
  implb (shouldClose s) (shouldClose s') = true /\
  implb (ended s) (ended s') = true /\
  implb (destroyed s) (destroyed s') = true /\
  maxStackedBuffers s' = maxStackedBuffers s.
Proof.
  intros s'. destruct (run_flags evs s) as (Hc & He & Hd).
  fold s' in Hc, He, Hd.
  split; [|split; [|split]].
  - destruct (shouldClose s); [rewrite Hc by reflexivity|]; reflexivity.
  - destruct (ended s); [rewrite He by reflexivity|]; reflexivity.
  - destruct (destroyed s); [rewrite Hd by reflexivity|]; reflexivity.
  - apply run_maxStackedBuffers.
Qed.

(** ** What is queued and what is pushed *)

Lemma trySendChunk_views o b s :
  is_view b = true -> queue_of_views s -> queue_of_views (trySendChunk o b s).2.
Proof.
  unfold queue_of_views. by_cases; intros Hb Hq; auto;
    try (apply Forall_app; split; [exact Hq | repeat constructor; exact Hb]);
    constructor.
Qed.

Lemma splice_head_views s : queue_of_views s -> queue_of_views (splice_head s).
Proof.
  unfold queue_of_views, splice_head. cbn. intros Hq.
  destruct Hq; simpl; [constructor | assumption].
Qed.

Lemma tryEnd_views s : queue_of_views s -> queue_of_views (tryEnd s).
Proof. unfold queue_of_views. rewrite tryEnd_sendQueue. auto. Qed.

Lemma close_views s : queue_of_views s -> queue_of_views (close s).
Proof. unfold queue_of_views. by_cases; intros; auto; constructor. Qed.

Lemma read_loop_views n os s :
  queue_of_views s -> queue_of_views (read_loop n os s).
Proof.
  revert os s. induction n as [|n IH]; intros os s Hq; simpl; auto.
  destruct (sendQueue s) as [|h q] eqn:Hs; auto.
  assert (is_view h = true) as Hh.
  { unfold queue_of_views in Hq. rewrite Hs in Hq.
    apply Forall_cons in Hq as [Hh _]. exact Hh. }
  pose proof (trySendChunk_views (next_outcome os) h s Hh Hq) as H1.
  destruct (trySendChunk (next_outcome os) h s) as [[|] s1]; simpl in H1; auto.
  apply IH, splice_head_views, H1.
Qed.

Lemma step_views e s : queue_of_views s -> queue_of_views (step e s).
Proof.
  intros Hq. destruct e as [ab chunk isLast o|ab chunk|os|err]; simpl; auto.
  - unfold onData.
    pose proof (trySendChunk_views o (View ab)
                  (set_arrayBuffers (<[ab := chunk]> (arrayBuffers s)) s)
                  eq_refl Hq) as H1.
    destruct (trySendChunk o (View ab) _) as [r s1]; simpl in H1.
    destruct isLast; auto using tryEnd_views.
  - unfold _read.
    pose proof (read_loop_views (length (sendQueue s)) os s Hq) as H1.
    destruct (_ && _); auto using close_views.
  - revert Hq. unfold queue_of_views. by_cases; intros; auto; constructor.
Qed.

Lemma run_views evs s : queue_of_views s -> queue_of_views (run evs s).
Proof.
  revert s. induction evs as [|e evs IH]; intros s Hq; simpl; auto.
  apply IH, step_views, Hq.
Qed.

(** X12: in every run each pending chunk is a view on an [ArrayBuffer] of
    the source, never memory of the bridge, and each chunk handed to [push]
    is memory the bridge allocated, never a view: the copy made by
    [createBufferCopy] protects what is delivered at once, not what
    waits in the queue. *)
Theorem queue_holds_views_push_gets_copies (config : Config) (evs : list Event) :
  let s := run evs (constructor config) in
  Forall (fun b => is_view b = true) (sendQueue s) /\
  Forall (fun b => is_view b = false) (pushed s).
Proof.
  intros s. split.
  - apply run_views. constructor.
  - pose proof (reachable_pushed_owned config evs) as Hown. fold s in Hown.
    unfold pushed_owned in Hown.
    induction Hown as [|b l Hb Hl IH]; constructor; auto.
    destruct b; [contradiction | reflexivity].
Qed.

(** * End-of-data and the chunks that were pending *)

Lemma trySendChunk_false_cases o b s :
  (trySendChunk o b s).1 = false ->
  destroyed (trySendChunk o b s).2 = true \/ sendQueue (trySendChunk o b s).2 <> [].
Proof.
  by_cases; intros; auto; try congruence;
    right; destruct (sendQueue s); discriminate.
Qed.

Lemma trySendChunk_true_cases o b s :
  (trySendChunk o b s).1 = true ->
  sendQueue s <> [] ->
  (byteLength s b = 0%nat /\ (trySendChunk o b s).2 = set_shouldClose true s) \/
  (byteLength s b <> 0%nat /\ live s /\
   (trySendChunk o b s).2
   = emit (Data (Alloc (length (allocated s))))
          (set_allocated (allocated s ++ [contents s b]) s)).
Proof.
  intros Htrue Hq. unfold trySendChunk in *.
  destruct (byteLength s b =? 0)%nat eqn:Hlen.
  - left. apply Nat.eqb_eq in Hlen. split; [exact Hlen|].
    cbn [snd]. apply tryEnd_pending, Hq.
  - right. apply Nat.eqb_neq in Hlen. split; [exact Hlen|].
    revert Htrue. unfold createBufferCopy, push. simpl.
    destruct (ended s) eqn:He; simpl;
      [destruct (Js.strict_eq_length _ _); discriminate|].
    destruct (destroyed s) eqn:Hd; simpl;
      [destruct (Js.strict_eq_length _ _); discriminate|].
    destruct o as [|[|]]; simpl;
      try (destruct (Js.strict_eq_length _ _); discriminate).
    intros _. split; [split; assumption | reflexivity].
Qed.

Lemma views_contents_same s s' (l : list Buffer) :
  arrayBuffers s' = arrayBuffers s ->
  Forall (fun b => is_view b = true) l ->
  contents s' <$> l = contents s <$> l.
Proof.
  intros Hab Hl. induction Hl as [|b l Hb Hl IH]; [reflexivity|].
  rewrite !fmap_cons, IH. f_equal.
  destruct b; [|discriminate]. simpl. rewrite Hab. reflexivity.
Qed.

(** When the loop of [_read] ends with an empty queue on a stream that is
    not destroyed, every chunk that was pending has been pushed, oldest
    first, with the bytes it showed. *)
Lemma read_loop_drained n os s :
  pushed_owned s -> queue_of_views s ->
  destroyed (read_loop n os s) = false ->
  sendQueue (read_loop n os s) = [] ->
  delivered (read_loop n os s)
  = delivered s ++ concat (contents s <$> sendQueue s).
Proof.
  revert os s. induction n as [|n IH]; intros os s Hown Hviews Hd Hnil.
  - simpl in *. rewrite Hnil. simpl. rewrite app_nil_r. reflexivity.
  - cbn [read_loop] in *.
    destruct (sendQueue s) as [|h q] eqn:Hq.
    { simpl. rewrite app_nil_r. reflexivity. }
    pose proof (trySendChunk_false_cases (next_outcome os) h s) as Hfalse.
    pose proof (trySendChunk_true_cases (next_outcome os) h s) as Htrue.
    pose proof (trySendChunk_true_queue (next_outcome os) h s) as Hsame.
    pose proof (trySendChunk_pushed_owned (next_outcome os) h s Hown) as Hown1.
    assert (is_view h = true) as Hh.
    { unfold queue_of_views in Hviews. rewrite Hq in Hviews.
      apply Forall_cons in Hviews as [Hh _]. exact Hh. }
    assert (Forall (fun b => is_view b = true) q) as Hvq.
    { unfold queue_of_views in Hviews. rewrite Hq in Hviews.
      apply Forall_cons in Hviews as [_ Hvq]. exact Hvq. }
    pose proof (trySendChunk_views (next_outcome os) h s Hh Hviews) as Hviews1.
    destruct (trySendChunk (next_outcome os) h s) as [[|] s1]; cbn [fst snd] in *.
    + specialize (Hsame eq_refl).
      assert (sendQueue (splice_head s1) = q) as Hq2.
      { unfold splice_head. cbn. rewrite Hsame, Hq. reflexivity. }
      rewrite (IH (tail os) (splice_head s1) Hown1
                 (splice_head_views s1 Hviews1) Hd Hnil), Hq2.
      rewrite fmap_cons. cbn [concat]. rewrite app_assoc. f_equal.
      * destruct (Htrue eq_refl) as [[Hlen ->]|(Hlen & Hlive & ->)].
        { rewrite Hq. discriminate. }
        { unfold byteLength in Hlen. apply length_zero_iff_nil in Hlen.
          rewrite Hlen, app_nil_r. reflexivity. }
        { exact (delivered_emit_copy (contents s h) s Hown). }
      * f_equal. apply views_contents_same; [|exact Hvq].
        destruct (Htrue eq_refl) as [[_ ->]|(_ & _ & ->)];
          [rewrite Hq; discriminate | reflexivity | reflexivity].
    + destruct (Hfalse eq_refl); congruence.
Qed.

Lemma close_end_live s : signals_end s (close s) -> live s.
Proof. end_cases. Qed.

Lemma read_loop_pushed_owned n os s :
  pushed_owned s -> pushed_owned (read_loop n os s).
Proof.
  apply (read_loop_invariant pushed_owned).
  - apply trySendChunk_pushed_owned.
  - intros s0 H; exact H.
Qed.

(** A step that gives end-of-data has first delivered every chunk that was
    pending when the step began, oldest first. *)
Lemma step_end_drained e s :
  pushed_owned s -> queue_of_views s ->
  signals_end s (step e s) ->
  (delivered s ++ concat (contents s <$> sendQueue s))
  `prefix_of` delivered (step e s).
Proof.
  intros Hown Hviews Hsig.
  destruct e as [ab chunk isLast o|ab chunk|os|err].
  - rewrite (step_onData_end ab chunk isLast o s Hsig).
    cbn [fmap list_fmap concat]. rewrite app_nil_r.
    apply delivered_grows;
      [exact Hown | exact (step_grows (OnData ab chunk isLast o) s)].
  - unfold signals_end in Hsig. simpl in Hsig. lia.
  - cbn [step] in *. unfold _read in *.
    pose proof (read_loop_end (length (sendQueue s)) os s) as Hloop.
    pose proof (read_loop_drained (length (sendQueue s)) os s Hown Hviews) as Hdr.
    pose proof (read_loop_pushed_owned (length (sendQueue s)) os s Hown) as Hown1.
    set (s1 := read_loop (length (sendQueue s)) os s) in *.
    destruct (shouldClose s1 && (length (sendQueue s1) =? 0)%nat) eqn:Hc.
    + apply andb_true_iff in Hc as [_ Hq].
      assert (sendQueue s1 = []) as Hnil
        by (destruct (sendQueue s1); [reflexivity | discriminate]).
      assert (signals_end s1 (close s1)) as Hsig1
        by (unfold signals_end in *; rewrite Hloop; exact Hsig).
      pose proof (close_end_live s1 Hsig1) as Hlive.
      destruct (close_live s1 Hlive) as (_ & _ & _ & Ha & Hp).
      rewrite (delivered_same_memory s1 (close s1) Ha Hp Hown1).
      rewrite (Hdr (proj1 Hlive) Hnil). reflexivity.
    + unfold signals_end in Hsig. rewrite Hloop in Hsig. lia.
  - revert Hsig. unfold signals_end. cbn [step]. destruct err;
      by_cases; rewrite ?count_snoc; simpl; intros; lia.
Qed.

(** C6: when the final chunk arrives while chunks are pending, that call
    gives no end-of-data; it only sets the closing flag.  In the rest of the
    run, a step gives end-of-data only from a stream that was never
    destroyed, so no pending chunk was thrown away, and only after it has
    delivered every chunk that was pending when it began, oldest first; it
    leaves the queue empty; and no chunk is given to the consumer after
    end-of-data. *)
Theorem end_of_data_waits_for_sendQueue
  (config : Config) (evs : list Event) (ab : nat) (chunk : bytes) (o : PushOutcome) :
  let s := run evs (constructor config) in
  let s1 := step (OnData ab chunk true o) s in
  sendQueue s <> [] ->
  ~ signals_end s s1 /\
  shouldClose s1 = true /\
  forall evs' e,
    let s2 := run evs' s1 in
    data_before_end (output (step e s2)) = true /\
    (signals_end s2 (step e s2) ->
     destroyed s2 = false /\
     (delivered s2 ++ concat (contents s2 <$> sendQueue s2))
     `prefix_of` delivered (step e s2) /\
     sendQueue (step e s2) = []).
Proof.
  intros s s1 Hq. split; [|split].
  - intros Hend. apply Hq. exact (step_onData_end ab chunk true o s Hend).
  - apply step_onData_last_shouldClose.
  - intros evs' e s2.
    assert (s2 = run (evs ++ [OnData ab chunk true o] ++ evs') (constructor config))
      as Hreach by (rewrite !run_app; reflexivity).
    split.
    + pose proof (reachable_lifecycle config
                    (evs ++ [OnData ab chunk true o] ++ evs' ++ [e])) as Hlc.
      rewrite !run_app in Hlc. apply Hlc.
    + intros Hend. destruct (step_end e s2 Hend) as (Hd & Hq2 & _).
      split; [exact Hd|]. split; [|exact Hq2].
      apply step_end_drained; [| |exact Hend]; rewrite Hreach.
      * apply reachable_pushed_owned.
      * apply run_views. constructor.
Qed.

Lemma end_of_data_waits_for_sendQueue_witness :
  let s := run [OnData 0 A false (Saturated false)] (constructor empty_config) in
  let s1 := step (OnData 1 B true (Saturated false)) s in
  sendQueue s <> [] /\
  ~ signals_end s s1 /\
  (A ++ B) `prefix_of` delivered (step (Read []) s1) /\
  sendQueue (step (Read []) s1) = [].
Proof.
  intros s s1.
  assert (sendQueue s <> []) as Hq by (vm_compute; discriminate).
  destruct (end_of_data_waits_for_sendQueue empty_config
              [OnData 0 A false (Saturated false)] 1 B (Saturated false) Hq)
    as (Hno & _ & Hlater).
  split; [exact Hq|]. split; [exact Hno|].
  destruct (Hlater [] (Read [])) as [_ Hend].
  destruct Hend as (_ & Hpre & Hnil).
  - unfold signals_end. vm_compute. lia.
  - split; [exact Hpre | exact Hnil].
Defined.

(** C7 fails on the code.  The source feeds one chunk [A], not marked last,
    while the consumer is saturated, and then detaches its buffer, as
    uWebSockets.js does when the callback returns; no chunk marked last
    and no empty chunk ever arrives.  The next [_read] finds a pending chunk
    of length zero, calls [tryEnd] for it, and gives end-of-data: the stream
    is closed although no closing signal was received, and [A] is lost when
    the saturated push had left it out. *)
Theorem end_of_data_without_closing_signal :
  Forall (fun taken =>
            let evs := [OnData 0 A false (Saturated taken);
                        SourceWrites 0 [];
                        Read []] in
            let s := run evs (constructor empty_config) in
            existsb closing_signal evs = false /\
            shouldClose (run [OnData 0 A false (Saturated taken);
                              SourceWrites 0 []] (constructor empty_config))
            = false /\
            count is_end (output s) = 1%nat /\
            destroyed s = true /\
            delivered s = (if taken then A else []))
         [false; true].
Proof.
  constructor; [|constructor; [|constructor]];
    vm_compute; repeat split.
Qed.
